(** * enaml.core.expression_engine: the binding-dispatch engine

    A shallow embedding of [ExpressionEngine] (read, write, copy) over an
    explicit Python object store, and the properties of its dispatch and
    of its copy operation. *)

From Stdlib Require Import String.
From stdpp Require Import gmap strings list.

Set Warnings "-clear-no-such-hyp".

(** ** atom.datastructures.sortedmap

    The engine keeps its handlers in [sortedmap] objects of the atom
    library: a vector of (key, value) pairs kept in increasing key order,
    searched by lower bound.  Keys of the engine are attribute names. *)

Module SortedMap.
Section Items.
Context {V : Type}.

(** [m[k]]: the first pair whose key is not below [k] is the only
    candidate. *)
Fixpoint getitem (m : list (string * V)) (k : string) : option V :=
  match m with
  | [] => None
  | (k', v) :: m' =>
      if String.ltb k' k then getitem m' k
      else if String.eqb k' k then Some v
      else None
  end.

(** [m[k] = v]: overwrite at the lower bound when the key is there,
    insert before it otherwise. *)
Fixpoint setitem (m : list (string * V)) (k : string) (v : V)
  : list (string * V) :=
  match m with
  | [] => [(k, v)]
  | (k', v') :: m' =>
      if String.ltb k' k then (k', v') :: setitem m' k v
      else if String.eqb k' k then (k, v) :: m'
      else (k, v) :: (k', v') :: m'
  end.

(** [del m[k]]: [None] stands for the KeyError of a missing key. *)
Fixpoint delitem (m : list (string * V)) (k : string)
  : option (list (string * V)) :=
  match m with
  | [] => None
  | (k', v') :: m' =>
      if String.ltb k' k then cons (k', v') <$> delitem m' k
      else if String.eqb k' k then Some m'
      else None
  end.

(** The representation invariant of the vector: keys strictly
    increasing. *)
Fixpoint sorted (m : list (string * V)) : bool :=
  match m with
  | [] => true
  | (k, _) :: m' => forallb (fun kv => String.ltb k kv.1) m' && sorted m'
  end.
End Items.
End SortedMap.

(** ** The object store *)

(** References are object identities. *)
Definition ref := positive.

(** The objects the engine works on: sortedmaps (name to reference),
    lists of references and engines with their two members.  Every other
    object (a handler, an owner) is [OOther]: the engine only passes its
    reference on. *)
Inductive obj :=
| OSortedMap (items : list (string * ref))
| OList (elems : list ref)
| OEngine (read_handlers write_handlers : ref)
| OOther.

Global Instance obj_eq_dec : EqDecision obj.
Proof. solve_decision. Defined.

Section Engine.
(** [World] is the part of the program state that is not a map, a list
    or an engine (the owners' attributes among it); [Owner], [Change]
    and [Value] are passed through the engine untouched; [HExn] are the
    exceptions a handler may raise besides the built-in ones. *)
Context {World Owner Change Value HExn : Type}.

Record store := Store { heap : gmap ref obj; world : World }.

Inductive exn :=
| KeyError (key : string)
| TypeError
| AttributeError
| HandlerError (e : HExn).

(** [Diverge]: no result, the step bound of a loop was reached or a
    handler did not return. *)
Inductive outcome (A : Type) :=
| Ret (a : A)
| Raise (e : exn)
| Diverge.
Global Arguments Ret {A} a.
Global Arguments Raise {A} e.
Global Arguments Diverge {A}.

(** The handler calls an engine operation makes, in the order made. *)
Inductive call :=
| CallRead (h : ref) (owner : Owner) (name : string)
| CallWrite (h : ref) (owner : Owner) (name : string) (change : Change).

(** Computations: a store transformer with a result and the calls made. *)
Definition M (A : Type) : Type := store → outcome A * store * list call.

Definition ret {A} (a : A) : M A := λ σ, (Ret a, σ, []).
Definition raise {A} (e : exn) : M A := λ σ, (Raise e, σ, []).
Definition diverge {A} : M A := λ σ, (Diverge, σ, []).

Definition bind {A B} (m : M A) (f : A → M B) : M B := λ σ,
  match m σ with
  | (Ret a, σ1, t1) => let '(r, σ2, t2) := f a σ1 in (r, σ2, t1 ++ t2)
  | (Raise e, σ1, t1) => (Raise e, σ1, t1)
  | (Diverge, σ1, t1) => (Diverge, σ1, t1)
  end.

Global Instance M_ret : MRet M := @ret.
Global Instance M_bind : MBind M := λ A B f m, bind m f.

(** Handlers are arbitrary callables: what calling the object [h] does
    is given from outside.  A handler sees and may change the whole
    store, the engine's own maps and lists included. *)
Variable call_read : ref → Owner → string → store → outcome Value * store.
Variable call_write :
  ref → Owner → string → Change → store → outcome unit * store.

(** *** Store primitives

    A reference that is not in the store, which Python rules out, is
    treated as an object of the wrong type. *)

Definition get_obj (l : ref) : M obj := λ σ,
  match heap σ !! l with
  | Some o => ret o σ
  | None => raise TypeError σ
  end.

Definition put_obj (l : ref) (o : obj) : M unit := λ σ,
  (Ret tt, Store (<[l := o]> (heap σ)) (world σ), []).

Definition alloc (o : obj) : M ref := λ σ,
  let l := fresh (dom (heap σ)) in
  (Ret l, Store (<[l := o]> (heap σ)) (world σ), []).

(** *** sortedmap and list objects *)

(** [sortedmap()] *)
Definition sortedmap_new : M ref := alloc (OSortedMap []).

(** [m.items()] *)
Definition sortedmap_items (m : ref) : M (list (string * ref)) :=
  o ← get_obj m;
  match o with
  | OSortedMap items => ret items
  | _ => raise TypeError
  end.

(** [m[k]], a KeyError when [k] is missing. *)
Definition sortedmap_getitem (m : ref) (k : string) : M ref :=
  items ← sortedmap_items m;
  match SortedMap.getitem items k with
  | Some v => ret v
  | None => raise (KeyError k)
  end.

(** [m[k] = v] *)
Definition sortedmap_setitem (m : ref) (k : string) (v : ref) : M unit :=
  items ← sortedmap_items m;
  put_obj m (OSortedMap (SortedMap.setitem items k v)).

(** [del m[k]] *)
Definition sortedmap_delitem (m : ref) (k : string) : M unit :=
  items ← sortedmap_items m;
  match SortedMap.delitem items k with
  | Some items' => put_obj m (OSortedMap items')
  | None => raise (KeyError k)
  end.

(** [m.copy()]: a new map with the same items. *)
Definition sortedmap_copy (m : ref) : M ref :=
  items ← sortedmap_items m;
  alloc (OSortedMap items).

Definition list_elems (l : ref) : M (list ref) :=
  o ← get_obj l;
  match o with
  | OList elems => ret elems
  | _ => raise TypeError
  end.

(** [value[:]] *)
Definition list_slice_all (l : ref) : M ref :=
  elems ← list_elems l;
  alloc (OList elems).

(** [l.append(x)] *)
Definition list_append (l x : ref) : M unit :=
  elems ← list_elems l;
  put_obj l (OList (elems ++ [x])).

(** *** The members of an engine

    [read_handlers] and [write_handlers] are [Typed(sortedmap, ())]
    members: each engine has its own empty map by default, and an
    assignment is checked to be a sortedmap.  Atom creates the default
    on first access; here the constructor creates it. *)

Definition new_ExpressionEngine : M ref :=
  r ← sortedmap_new;
  w ← sortedmap_new;
  alloc (OEngine r w).

Definition get_read_handlers (self : ref) : M ref :=
  o ← get_obj self;
  match o with
  | OEngine r _ => ret r
  | _ => raise AttributeError
  end.

Definition get_write_handlers (self : ref) : M ref :=
  o ← get_obj self;
  match o with
  | OEngine _ w => ret w
  | _ => raise AttributeError
  end.

Definition set_read_handlers (self v : ref) : M unit :=
  o ← get_obj self;
  match o with
  | OEngine _ w => sortedmap_items v;; put_obj self (OEngine v w)
  | _ => raise AttributeError
  end.

Definition set_write_handlers (self v : ref) : M unit :=
  o ← get_obj self;
  match o with
  | OEngine r _ => sortedmap_items v;; put_obj self (OEngine r v)
  | _ => raise AttributeError
  end.

(** *** Calling a handler *)

Definition invoke_read (h : ref) (owner : Owner) (name : string)
  : M Value := λ σ,
  let '(r, σ') := call_read h owner name σ in
  (r, σ', [CallRead h owner name]).

Definition invoke_write (h : ref) (owner : Owner) (name : string)
    (change : Change) : M unit := λ σ,
  let '(r, σ') := call_write h owner name change σ in
  (r, σ', [CallWrite h owner name change]).

(** [for x in l: body(x)] over a list object.  The list iterator keeps
    the list and an index and looks the list up again at every step, so
    elements the body appends are visited too: the loop may not end,
    and [fuel] bounds the number of times the body is run. *)
Fixpoint for_in (fuel : nat) (l : ref) (i : nat) (body : ref → M unit)
  : M unit :=
  elems ← list_elems l;
  match elems !! i with
  | None => ret tt
  | Some x =>
      match fuel with
      | O => diverge
      | S fuel' => body x;; for_in fuel' l (S i) body
      end
  end.

(** [for key, value in items: body(key, value)] over the list that
    [sortedmap.items()] returns, which nothing else refers to. *)
Fixpoint for_items (items : list (string * ref))
    (body : string → ref → M unit) : M unit :=
  match items with
  | [] => ret tt
  | (key, value) :: items' => body key value;; for_items items' body
  end.

(** ** ExpressionEngine *)

(** [return self.read_handlers[name](owner, name)] *)
Definition read (self : ref) (owner : Owner) (name : string) : M Value :=
  m ← get_read_handlers self;
  h ← sortedmap_getitem m name;
  invoke_read h owner name.

(** [for handler in self.write_handlers[name]:
       handler(owner, name, change)] *)
Definition write (fuel : nat) (self : ref) (owner : Owner) (name : string)
    (change : Change) : M unit :=
  m ← get_write_handlers self;
  l ← sortedmap_getitem m name;
  for_in fuel l 0 (λ handler, invoke_write handler owner name change).

(** [new = ExpressionEngine()
     new.read_handlers = self.read_handlers.copy()
     new.write_handlers = w = sortedmap()
     for key, value in self.write_handlers.items():
         w[key] = value[:]
     return new] *)
Definition copy (self : ref) : M ref :=
  new ← new_ExpressionEngine;
  r ← get_read_handlers self;
  r' ← sortedmap_copy r;
  set_read_handlers new r';;
  w ← sortedmap_new;
  set_write_handlers new w;;
  m ← get_write_handlers self;
  items ← sortedmap_items m;
  for_items items (λ key value,
    value' ← list_slice_all value;
    sortedmap_setitem w key value');;
  ret new.

(** ** The registration interface *)

(** Modelled from the spec: [set_read_handler(name, handler)] of the
    binding compiler, which is not part of this module.  The spec has it
    as [put(name, handler)] on the read side, last registration wins. *)
Definition set_read_handler (self : ref) (name : string) (h : ref)
  : M unit :=
  m ← get_read_handlers self;
  sortedmap_setitem m name h.

(** Modelled from the spec: [add_write_handler(name, handler)] of the
    binding compiler, [append(name, handler)] on the write side: the
    chain at [name] grows by [h], and a chain is started when there is
    none. *)
Definition add_write_handler (self : ref) (name : string) (h : ref)
  : M unit :=
  m ← get_write_handlers self;
  items ← sortedmap_items m;
  match SortedMap.getitem items name with
  | Some l => list_append l h
  | None => l ← alloc (OList [h]); sortedmap_setitem m name l
  end.

(** Modelled from the spec: the removal of a binding ("adding/removing
    bindings, e.g. during dynamic re-binding"), as the deletion of the
    name from the map. *)
Definition remove_read_handler (self : ref) (name : string) : M unit :=
  m ← get_read_handlers self;
  sortedmap_delitem m name.

(** Modelled from the spec: the removal of the chain of a name, as the
    deletion of the name from the write map. *)
Definition remove_write_handlers (self : ref) (name : string) : M unit :=
  m ← get_write_handlers self;
  sortedmap_delitem m name.

Inductive mutation :=
| SetRead (name : string) (h : ref)
| AddWrite (name : string) (h : ref)
| RemoveRead (name : string)
| RemoveWrite (name : string).

Definition mutate (self : ref) (μ : mutation) : M unit :=
  match μ with
  | SetRead name h => set_read_handler self name h
  | AddWrite name h => add_write_handler self name h
  | RemoveRead name => remove_read_handler self name
  | RemoveWrite name => remove_write_handlers self name
  end.

(** ** Observations used in the statements *)

(** The elements of the list object [l], when it is one. *)
Definition list_at (σ : store) (l : ref) : option (list ref) :=
  match heap σ !! l with
  | Some (OList elems) => Some elems
  | _ => None
  end.

(** What [self.read_handlers[name]] evaluates to. *)
Definition read_target (self : ref) (name : string) : M ref :=
  m ← get_read_handlers self;
  sortedmap_getitem m name.

(** The elements [write] starts to iterate over. *)
Definition write_target (self : ref) (name : string) : M (list ref) :=
  m ← get_write_handlers self;
  l ← sortedmap_getitem m name;
  list_elems l.

(** The objects an engine is made of besides itself: its two maps and
    the lists of its write map. *)
Definition parts (σ : store) (self : ref) : list ref :=
  match heap σ !! self with
  | Some (OEngine r w) =>
      r :: w ::
      match heap σ !! w with
      | Some (OSortedMap items) => items.*2
      | _ => []
      end
  | _ => []
  end.

(** What a caller sees of a run: the result, the world and the calls. *)
Definition observe {A} (x : outcome A * store * list call)
  : outcome A * World * list call :=
  (x.1.1, world x.1.2, x.2).

(** Write handlers that leave the elements of every list as they are. *)
Definition keeps_lists : Prop :=
  ∀ h owner name change σ l elems,
    list_at σ l = Some elems →
    list_at (call_write h owner name change σ).2 l = Some elems.

(** Handlers whose result and whose effect on the world depend on the
    world only, not on the maps and lists of the engines. *)
Definition world_driven_write : Prop :=
  ∀ h owner name change σa σb,
    world σa = world σb →
    (call_write h owner name change σa).1
    = (call_write h owner name change σb).1
    ∧ world (call_write h owner name change σa).2
      = world (call_write h owner name change σb).2.

Definition world_driven_read : Prop :=
  ∀ h owner name σa σb,
    world σa = world σb →
    (call_read h owner name σa).1 = (call_read h owner name σb).1
    ∧ world (call_read h owner name σa).2
      = world (call_read h owner name σb).2.

(** [m] keeps the objects of [D]: run from a store that has them, it
    calls no handler, leaves the world and every object of [D] as they
    are, drops no object, and a value it returns satisfies [Q]. *)
Definition keeps {A} (D : gset ref) (m : M A) (Q : A → Prop) : Prop :=
  ∀ σ, D ⊆ dom (heap σ) →
    (m σ).2 = []
    ∧ world (m σ).1.2 = world σ
    ∧ dom (heap σ) ⊆ dom (heap (m σ).1.2)
    ∧ (∀ x, x ∈ D → heap (m σ).1.2 !! x = heap σ !! x)
    ∧ (∀ a, (m σ).1.1 = Ret a → Q a).

(** The body of the loop of [copy]. *)
Definition copy_item (w : ref) (key : string) (value : ref) : M unit :=
  value' ← list_slice_all value;
  sortedmap_setitem w key value'.

(** The handlers of [pre] run in this order from [σ], each returning
    normally and leaving the list [l] with the elements [hs]: the store
    they end in. *)
Fixpoint run_quietly (l : ref) (hs : list ref) (owner : Owner)
    (name : string) (change : Change) (pre : list ref) (σ : store)
  : option store :=
  match pre with
  | [] => Some σ
  | h :: pre' =>
      match call_write h owner name change σ with
      | (Ret _, σ') =>
          if decide (list_at σ' l = Some hs)
          then run_quietly l hs owner name change pre' σ'
          else None
      | _ => None
      end
  end.

End Engine.

(** ** The scenario of the specification

    An owner with an attribute [x]; the read handler [square] bound at
    "y"; the write handlers [log_change] and [clamp_change] bound at "z".
    A handler [broken] that raises, longer chains at "t" and "u" and an
    empty chain at "e" complete the engine. *)

Module Scenario.
Local Open Scope positive_scope.

Record env := Env { x : nat; z : nat; log : list (nat * nat) }.

Definition engine : ref := 1.
Definition square : ref := 10.
Definition log_change : ref := 11.
Definition clamp_change : ref := 12.
Definition broken : ref := 13.
Definition owner : ref := 20.

Definition call_read (h : ref) (o : ref) (name : string)
    (σ : @store env) : @outcome string nat * @store env :=
  if decide (h = square)
  then (Ret (x (world σ) * x (world σ))%nat, σ)
  else (Raise TypeError, σ).

Definition call_write (h : ref) (o : ref) (name : string)
    (change : nat * nat) (σ : @store env)
  : @outcome string unit * @store env :=
  let w := world σ in
  if decide (h = log_change)
  then (Ret tt, Store (heap σ) (Env (x w) (z w) (change :: log w)))
  else if decide (h = clamp_change)
  then (Ret tt, Store (heap σ) (Env (x w) (change.2 `min` 100)%nat (log w)))
  else if decide (h = broken)
  then (Raise (HandlerError "broken"%string), σ)
  else (Raise TypeError, σ).

Definition read_items : list (string * ref) := [("y"%string, square)].
Definition write_items : list (string * ref) :=
  [("e"%string, 5); ("t"%string, 6); ("u"%string, 7); ("z"%string, 4)].

Definition heap0 : gmap ref obj :=
  list_to_map
    [(engine, OEngine 2 3);
     (2, OSortedMap read_items);
     (3, OSortedMap write_items);
     (4, OList [log_change; clamp_change]);
     (5, OList []);
     (6, OList [log_change; clamp_change; log_change]);
     (7, OList [log_change; broken; clamp_change]);
     (square, OOther); (log_change, OOther); (clamp_change, OOther);
     (broken, OOther); (owner, OOther)].

Definition σ0 : @store env := Store heap0 (Env 4 0 []).

(** The change of the scenario: old value 1, new value 200. *)
Definition change : nat * nat := (1%nat, 200%nat).

End Scenario.

(** ** The handler base classes *)

Section BaseHandlers.
Context {World Owner Change Value HExn : Type}.

(** [NotImplementedError], among the exceptions of the handlers. *)
Variable not_implemented : HExn.

(** [ReadHandler.__call__(self, owner, name)]:
    [raise NotImplementedError]. *)
Definition ReadHandler_call (self : ref) (owner : Owner) (name : string)
    (σ : @store World) : @outcome HExn Value * @store World :=
  (Raise (HandlerError not_implemented), σ).

(** [WriteHandler.__call__(self, owner, name, change)]:
    [raise NotImplementedError]. *)
Definition WriteHandler_call (self : ref) (owner : Owner) (name : string)
    (change : Change) (σ : @store World)
  : @outcome HExn unit * @store World :=
  (Raise (HandlerError not_implemented), σ).
End BaseHandlers.

(** ** A scenario with handlers that rebind

    An engine whose handlers change the chain they are called from:
    [grow] appends [clamp_change] to the chain at "g", [shrink] empties
    the chain at "s"; [plain_reader] and [plain_writer] are instances of
    the base classes. *)

Module Rebinding.
Import Scenario.
Local Open Scope positive_scope.

Definition grow : ref := 14.
Definition shrink : ref := 15.
Definition plain_reader : ref := 16.
Definition plain_writer : ref := 17.

Definition call_read (h : ref) (o : ref) (name : string)
    (σ : @store env) : @outcome string nat * @store env :=
  if decide (h = plain_reader)
  then ReadHandler_call "NotImplementedError"%string h o name σ
  else Scenario.call_read h o name σ.

Definition call_write (h : ref) (o : ref) (name : string)
    (change : nat * nat) (σ : @store env)
  : @outcome string unit * @store env :=
  if decide (h = grow)
  then match list_at σ 8 with
       | Some elems =>
           (Ret tt,
            Store (<[8 := OList (elems ++ [clamp_change])]> (heap σ))
              (world σ))
       | None => (Raise TypeError, σ)
       end
  else if decide (h = shrink)
  then (Ret tt, Store (<[9 := OList []]> (heap σ)) (world σ))
  else if decide (h = plain_writer)
  then WriteHandler_call "NotImplementedError"%string h o name change σ
  else Scenario.call_write h o name change σ.

Definition read_items : list (string * ref) :=
  [("p"%string, plain_reader); ("y"%string, square)].
Definition write_items : list (string * ref) :=
  [("g"%string, 8); ("s"%string, 9); ("w"%string, 6)].

Definition heap0 : gmap ref obj :=
  list_to_map
    [(engine, OEngine 2 3);
     (2, OSortedMap read_items);
     (3, OSortedMap write_items);
     (6, OList [log_change; plain_writer; clamp_change]);
     (8, OList [grow]);
     (9, OList [shrink; log_change]);
     (square, OOther); (log_change, OOther); (clamp_change, OOther);
     (grow, OOther); (shrink, OOther); (plain_reader, OOther);
     (plain_writer, OOther); (owner, OOther)].

Definition σ0 : @store env := Store heap0 (Env 4 0 []).
End Rebinding.

(** * Properties *)

(** ** The sorted vector *)

Section SortedMapFacts.
Context {V : Type}.
Implicit Types (m : list (string * V)) (k : string) (v : V).

Lemma setitem_values m k v x :
  x ∈ (SortedMap.setitem m k v).*2 → x = v ∨ x ∈ m.*2.
Proof.
  induction m as [|[k' v'] m IH]; simpl.
  - rewrite list_elem_of_singleton. auto.
  - destruct (String.ltb k' k); [|destruct (String.eqb k' k)]; simpl;
      rewrite ?elem_of_cons; naive_solver.
Qed.

(** A key above all the keys of the vector goes to its end. *)
Lemma setitem_above m k v :
  Forall (λ kv, String.ltb kv.1 k = true) m →
  SortedMap.setitem m k v = m ++ [(k, v)].
Proof.
  induction 1 as [|[k' v'] m Hk _ IH]; simpl in *; [done|].
  by rewrite Hk, IH.
Qed.

(** Vectors with the same keys are searched alike. *)
Lemma getitem_Forall2 {V'} (R : V → V' → Prop) m (m' : list (string * V')) k :
  Forall2 (λ kv kv', kv'.1 = kv.1 ∧ R kv.2 kv'.2) m m' →
  option_Forall2 R (SortedMap.getitem m k) (SortedMap.getitem m' k).
Proof.
  induction 1 as [|[k1 v1] [k2 v2] m m' [Hk HR] _ IH]; simpl in *.
  - constructor.
  - subst k2. destruct (String.ltb k1 k); [done|].
    destruct (String.eqb k1 k); by constructor.
Qed.

Lemma getitem_values m k v : SortedMap.getitem m k = Some v → v ∈ m.*2.
Proof.
  induction m as [|[k' v'] m IH]; simpl; [done|].
  destruct (String.ltb k' k); [|destruct (String.eqb k' k)];
    rewrite elem_of_cons; naive_solver.
Qed.
End SortedMapFacts.

(** ** The engine *)

Section StoreFacts.
Context {World Owner Change HExn : Type}.

Abbreviation store := (@store World).
Abbreviation M := (@M World Owner Change HExn).
Abbreviation copy := (@copy World Owner Change HExn).
Abbreviation mutate := (@mutate World Owner Change HExn).
Abbreviation keeps := (@keeps World Owner Change HExn).
Abbreviation copy_item := (@copy_item World Owner Change HExn).
Abbreviation for_items := (@for_items World Owner Change HExn).

Implicit Types (σ : store) (E l h : ref) (n : string)
  (items : list (string * ref)) (hs : list ref).

(** *** Running the monad *)

Lemma run_bind {A B} (m : M A) (f : A → M B) σ :
  (m ≫= f) σ =
  match m σ with
  | (Ret a, σ1, t1) => let '(r, σ2, t2) := f a σ1 in (r, σ2, t1 ++ t2)
  | (Raise e, σ1, t1) => (Raise e, σ1, t1)
  | (Diverge, σ1, t1) => (Diverge, σ1, t1)
  end.
Proof. reflexivity. Qed.

Lemma run_engine_member σ E r w :
  heap σ !! E = Some (OEngine r w) →
  @get_read_handlers World Owner Change HExn E σ = (Ret r, σ, [])
  ∧ @get_write_handlers World Owner Change HExn E σ = (Ret w, σ, []).
Proof.
  intros HE. unfold get_read_handlers, get_write_handlers, get_obj.
  rewrite !run_bind, HE. done.
Qed.

Lemma run_getitem σ m items n :
  heap σ !! m = Some (OSortedMap items) →
  @sortedmap_getitem World Owner Change HExn m n σ =
  match SortedMap.getitem items n with
  | Some v => (Ret v, σ, [])
  | None => (Raise (KeyError n), σ, [])
  end.
Proof.
  intros Hm. unfold sortedmap_getitem, sortedmap_items, get_obj.
  rewrite !run_bind, Hm. simpl. by destruct (SortedMap.getitem items n).
Qed.

Lemma run_list_elems σ l :
  @list_elems World Owner Change HExn l σ =
  match list_at σ l with
  | Some hs => (Ret hs, σ, [])
  | None => (Raise TypeError, σ, [])
  end.
Proof.
  unfold list_elems, list_at, get_obj. rewrite run_bind.
  destruct (heap σ !! l) as [[]|]; done.
Qed.

(** *** What [copy] and the registrations keep *)

Lemma keeps_ret {A} D (a : A) (Q : A → Prop) : Q a → keeps D (mret a) Q.
Proof. intros HQ σ HD. simpl. repeat split; try done. by intros ? [= <-]. Qed.

Lemma keeps_raise {A} D e (Q : A → Prop) :
  keeps D (@raise World Owner Change HExn A e) Q.
Proof. intros σ HD. simpl. repeat split; done. Qed.

Lemma keeps_bind {A B} D (m : M A) (f : A → M B) Q R :
  keeps D m Q → (∀ a, Q a → keeps D (f a) R) → keeps D (m ≫= f) R.
Proof.
  intros Hm Hf σ HD. rewrite run_bind.
  destruct (Hm σ HD) as (Ht & Hw & Hdom & Hobj & HQ).
  destruct (m σ) as [[[a|e|] σ1] t1]; simpl in *; try done.
  assert (D ⊆ dom (heap σ1)) as HD1 by set_solver.
  destruct (Hf a (HQ a eq_refl) σ1 HD1) as (Ht' & Hw' & Hdom' & Hobj' & HR).
  destruct (f a σ1) as [[r σ2] t2]; simpl in *. subst t1 t2.
  repeat split; try done.
  - congruence.
  - set_solver.
  - intros x Hx. by rewrite Hobj', Hobj.
Qed.

Lemma keeps_weaken {A} D (m : M A) (Q R : A → Prop) :
  keeps D m Q → (∀ a, Q a → R a) → keeps D m R.
Proof.
  intros Hm HQR σ HD. destruct (Hm σ HD) as (? & ? & ? & ? & HQ).
  repeat split; try done. intros a Ha. by apply HQR, HQ.
Qed.

Lemma keeps_get_obj D l :
  keeps D (@get_obj World Owner Change HExn l) (λ _, True).
Proof.
  intros σ HD. unfold get_obj.
  destruct (heap σ !! l); simpl; repeat split; done.
Qed.

Lemma keeps_put_obj D l ob :
  l ∉ D → keeps D (@put_obj World Owner Change HExn l ob) (λ _, True).
Proof.
  intros Hl σ HD. unfold put_obj. simpl. repeat split; try done.
  - rewrite dom_insert_L. set_solver.
  - intros x Hx. apply lookup_insert_ne. set_solver.
Qed.

Lemma keeps_alloc D ob :
  keeps D (@alloc World Owner Change HExn ob) (λ l, l ∉ D).
Proof.
  intros σ HD. unfold alloc. simpl.
  pose proof (is_fresh (dom (heap σ))) as Hfresh.
  repeat split; try done.
  - rewrite dom_insert_L. set_solver.
  - intros x Hx. apply lookup_insert_ne. set_solver.
  - intros a [= <-]. set_solver.
Qed.

Lemma keeps_sortedmap_items D m :
  keeps D (@sortedmap_items World Owner Change HExn m) (λ _, True).
Proof.
  apply (keeps_bind D _ _ (λ _, True)); [apply keeps_get_obj|].
  intros [] _; try apply keeps_raise. by apply keeps_ret.
Qed.

Lemma keeps_sortedmap_setitem D m k v :
  m ∉ D → keeps D (@sortedmap_setitem World Owner Change HExn m k v) (λ _, True).
Proof.
  intros Hm. apply (keeps_bind D _ _ (λ _, True));
    [apply keeps_sortedmap_items|].
  intros items _. by apply keeps_put_obj.
Qed.

Lemma keeps_sortedmap_delitem D m k :
  m ∉ D → keeps D (@sortedmap_delitem World Owner Change HExn m k) (λ _, True).
Proof.
  intros Hm. apply (keeps_bind D _ _ (λ _, True));
    [apply keeps_sortedmap_items|].
  intros items _. destruct (SortedMap.delitem items k);
    [by apply keeps_put_obj | apply keeps_raise].
Qed.

Lemma keeps_list_elems D l :
  keeps D (@list_elems World Owner Change HExn l) (λ _, True).
Proof.
  apply (keeps_bind D _ _ (λ _, True)); [apply keeps_get_obj|].
  intros [] _; try apply keeps_raise. by apply keeps_ret.
Qed.

Lemma keeps_list_append D l x :
  l ∉ D → keeps D (@list_append World Owner Change HExn l x) (λ _, True).
Proof.
  intros Hl. apply (keeps_bind D _ _ (λ _, True));
    [apply keeps_list_elems|].
  intros elems _. by apply keeps_put_obj.
Qed.

Lemma keeps_member D E :
  keeps D (@get_read_handlers World Owner Change HExn E) (λ _, True)
  ∧ keeps D (@get_write_handlers World Owner Change HExn E) (λ _, True).
Proof.
  split; (apply (keeps_bind D _ _ (λ _, True)); [apply keeps_get_obj|]);
    intros [] _; try apply keeps_raise; by apply keeps_ret.
Qed.

Lemma keeps_set_member D E v :
  E ∉ D →
  keeps D (@set_read_handlers World Owner Change HExn E v) (λ _, True)
  ∧ keeps D (@set_write_handlers World Owner Change HExn E v) (λ _, True).
Proof.
  intros HE.
  split; (apply (keeps_bind D _ _ (λ _, True)); [apply keeps_get_obj|]);
    intros [] _; try apply keeps_raise;
    (apply (keeps_bind D _ _ (λ _, True)); [apply keeps_sortedmap_items|]);
    intros _ _; by apply keeps_put_obj.
Qed.

Lemma keeps_copy_item D w key value :
  w ∉ D → keeps D (copy_item w key value) (λ _, True).
Proof.
  intros Hw. apply (keeps_bind D _ _ (λ _, True)).
  - apply (keeps_bind D _ _ (λ _, True)); [apply keeps_list_elems|].
    intros elems _. eapply keeps_weaken; [apply keeps_alloc | done].
  - intros l _. by apply keeps_sortedmap_setitem.
Qed.

Lemma keeps_for_items D (body : string → ref → M unit) items :
  (∀ key value, keeps D (body key value) (λ _, True)) →
  keeps D (for_items items body) (λ _, True).
Proof.
  intros Hbody. induction items as [|[key value] items IH]; simpl.
  - by apply keeps_ret.
  - apply (keeps_bind D _ _ (λ _, True)); [apply Hbody | done].
Qed.

(** [copy] only allocates, and writes to what it allocated. *)
Lemma keeps_copy D E : keeps D (copy E) (λ E', E' ∉ D).
Proof.
  unfold copy.
  apply (keeps_bind D _ _ (λ E', E' ∉ D)).
  { unfold new_ExpressionEngine.
    apply (keeps_bind D _ _ (λ _, True));
      [eapply keeps_weaken; [apply keeps_alloc | done]|].
    intros r _. apply (keeps_bind D _ _ (λ _, True));
      [eapply keeps_weaken; [apply keeps_alloc | done]|].
    intros w _. apply keeps_alloc. }
  intros new Hnew.
  apply (keeps_bind D _ _ (λ _, True)); [apply keeps_member|].
  intros r _. apply (keeps_bind D _ _ (λ _, True)).
  { apply (keeps_bind D _ _ (λ _, True)); [apply keeps_sortedmap_items|].
    intros items _. eapply keeps_weaken; [apply keeps_alloc | done]. }
  intros r' _. apply (keeps_bind D _ _ (λ _, True));
    [by apply keeps_set_member|].
  intros _ _. apply (keeps_bind D _ _ (λ w, w ∉ D)); [apply keeps_alloc|].
  intros w Hw. apply (keeps_bind D _ _ (λ _, True));
    [by apply keeps_set_member|].
  intros _ _. apply (keeps_bind D _ _ (λ _, True)); [apply keeps_member|].
  intros m _. apply (keeps_bind D _ _ (λ _, True));
    [apply keeps_sortedmap_items|].
  intros items _. apply (keeps_bind D _ _ (λ _, True)).
  { apply keeps_for_items. intros key value. by apply keeps_copy_item. }
  intros _ _. by apply keeps_ret.
Qed.

(** *** What [copy] builds *)

Lemma list_at_insert_ne (h' : gmap ref obj) x l ob (wd : World) :
  x ≠ l → list_at (Store (<[l := ob]> h') wd) x = list_at (Store h' wd) x.
Proof. intros Hx. unfold list_at. simpl. by rewrite lookup_insert_ne. Qed.

Lemma list_at_dom σ l : is_Some (list_at σ l) → l ∈ dom (heap σ).
Proof.
  unfold list_at. intros [hs Hl]. apply elem_of_dom.
  destruct (heap σ !! l); [by eexists | done].
Qed.

Lemma list_at_heap σ σ' l :
  heap σ' !! l = heap σ !! l → list_at σ' l = list_at σ l.
Proof. unfold list_at. by intros ->. Qed.

(** One turn of the loop: a new list with the elements of [value] is
    put at [key]. *)
Lemma run_copy_item σ w acc key value elems :
  heap σ !! w = Some (OSortedMap acc) →
  list_at σ value = Some elems →
  copy_item w key value σ =
  (Ret tt,
   Store (<[w := OSortedMap
                   (SortedMap.setitem acc key (fresh (dom (heap σ))))]>
            (<[fresh (dom (heap σ)) := OList elems]> (heap σ)))
     (world σ),
   []).
Proof.
  intros Hw Hl. unfold copy_item, list_slice_all.
  rewrite !run_bind, run_list_elems, Hl. unfold alloc. simpl.
  unfold sortedmap_setitem, sortedmap_items, get_obj.
  rewrite !run_bind. simpl.
  rewrite lookup_insert_ne, Hw; [done|].
  intros Heq. apply (is_fresh (dom (heap σ))). rewrite Heq.
  apply elem_of_dom. by eexists.
Qed.

Lemma copy_loop_spec w items :
  ∀ acc σ,
    heap σ !! w = Some (OSortedMap acc) →
    Forall (λ l, is_Some (list_at σ l)) items.*2 →
    ∃ σ' acc',
      for_items items (copy_item w) σ = (Ret tt, σ', [])
      ∧ heap σ' !! w = Some (OSortedMap acc')
      ∧ Forall (λ x, x ∈ acc.*2
                     ∨ ((x ∉ dom (heap σ)) ∧ is_Some (list_at σ' x)))
          acc'.*2
      ∧ (Forall (λ a, Forall (λ b, String.ltb a.1 b.1 = true) items) acc →
         SortedMap.sorted items = true →
         ∃ new,
           acc' = acc ++ new
           ∧ Forall2 (λ kv kv', kv'.1 = kv.1
                                ∧ list_at σ' kv'.2 = list_at σ kv.2)
               items new).
Proof.
  induction items as [|[key value] items IH]; intros acc σ Hw Hlists.
  - exists σ, acc. repeat split; try done.
    + apply Forall_forall. auto.
    + intros _ _. exists []. by rewrite app_nil_r.
  - apply Forall_cons in Hlists as [[elems Hvalue] Hlists]. simpl in Hvalue.
    pose proof (run_copy_item σ w acc key value elems Hw Hvalue) as Hrun.
    set (l2 := fresh (dom (heap σ))) in *.
    assert (l2 ∉ dom (heap σ)) as Hl2 by apply is_fresh.
    assert (w ∈ dom (heap σ)) as Hwdom by (apply elem_of_dom; by eexists).
    set (σb := Store (<[w := OSortedMap (SortedMap.setitem acc key l2)]>
                        (<[l2 := OList elems]> (heap σ))) (world σ)) in *.
    assert (∀ x, x ∈ dom (heap σ) → x ≠ w → heap σb !! x = heap σ !! x)
      as Hσb.
    { intros x Hx Hxw. simpl.
      rewrite lookup_insert_ne by done. apply lookup_insert_ne. set_solver. }
    assert (∀ x, is_Some (list_at σ x) → list_at σb x = list_at σ x) as Hlb.
    { intros x Hx. apply list_at_heap, Hσb; [by apply list_at_dom|].
      intros ->. unfold list_at in Hx. rewrite Hw in Hx. by destruct Hx. }
    destruct (IH (SortedMap.setitem acc key l2) σb) as
      (σ' & acc' & Hloop & Hw' & Hvals & Hsorted).
    { simpl. apply lookup_insert_eq. }
    { eapply Forall_impl; [exact Hlists|]. intros x Hx. by rewrite Hlb. }
    assert (dom (heap σ) ⊆ dom (heap σb)) as Hdomb.
    { simpl. rewrite !dom_insert_L. set_solver. }
    destruct (keeps_for_items (dom (heap σb) ∖ {[w]}) (copy_item w) items)
      with (σ := σb) as (_ & _ & _ & Hkeep & _).
    { intros k v. apply keeps_copy_item. set_solver. }
    { set_solver. }
    rewrite Hloop in Hkeep. simpl in Hkeep.
    assert (list_at σ' l2 = Some elems) as Hl2'.
    { unfold list_at. rewrite Hkeep.
      - simpl. rewrite lookup_insert_ne by set_solver.
        by rewrite lookup_insert_eq.
      - simpl. rewrite !dom_insert_L. set_solver. }
    exists σ', acc'. split; [|split; [done|split]].
    + simpl. rewrite run_bind, Hrun, Hloop. done.
    + eapply Forall_impl; [exact Hvals|]. intros x [Hx|[Hx Hlx]].
      * apply setitem_values in Hx as [->|Hx]; [|by left].
        right. split; [exact Hl2 | eexists; exact Hl2'].
      * right. split; [set_solver | done].
    + intros Hbelow Hsort. simpl in Hsort.
      apply andb_prop in Hsort as [Hkey Hsort].
      rewrite forallb_forall in Hkey.
      assert (SortedMap.setitem acc key l2 = acc ++ [(key, l2)]) as Hset.
      { apply setitem_above. eapply Forall_impl; [exact Hbelow|].
        intros a Ha. by apply Forall_cons in Ha as [Ha _]. }
      destruct Hsorted as (new & -> & Hnew); [|done|].
      { rewrite Hset. apply Forall_app. split.
        - eapply Forall_impl; [exact Hbelow|].
          intros a Ha. by apply Forall_cons in Ha as [_ Ha].
        - apply Forall_singleton. apply Forall_forall. intros b Hb.
          apply Hkey. by apply list_elem_of_In. }
      exists ((key, l2) :: new). split; [by rewrite Hset, <- app_assoc|].
      constructor; [split; [done|]; simpl; by rewrite Hl2', Hvalue|].
      clear -Hnew Hlists Hlb.
      induction Hnew as [|kv kv' m m' [Hk HR] _ IHF]; [done|].
      simpl in Hlists. apply Forall_cons in Hlists as [Hkv Hlists].
      constructor; [|by apply IHF]. split; [done|]. by rewrite HR, Hlb.
Qed.

Lemma run_sortedmap_items σ m items :
  heap σ !! m = Some (OSortedMap items) →
  @sortedmap_items World Owner Change HExn m σ = (Ret items, σ, []).
Proof.
  intros Hm. unfold sortedmap_items, get_obj. by rewrite run_bind, Hm.
Qed.

Lemma run_set_member σ E r w v items :
  heap σ !! E = Some (OEngine r w) →
  heap σ !! v = Some (OSortedMap items) →
  @set_read_handlers World Owner Change HExn E v σ =
    (Ret tt, Store (<[E := OEngine v w]> (heap σ)) (world σ), [])
  ∧ @set_write_handlers World Owner Change HExn E v σ =
    (Ret tt, Store (<[E := OEngine r v]> (heap σ)) (world σ), []).
Proof.
  intros HE Hv. unfold set_read_handlers, set_write_handlers, get_obj.
  rewrite !run_bind, HE. simpl.
  by rewrite !run_bind, (run_sortedmap_items σ v items Hv).
Qed.

(** The engine that [copy] returns, for an engine whose maps are in the
    store and whose write map holds lists. *)
Lemma copy_spec σ E1 r1 w1 ritems witems :
  heap σ !! E1 = Some (OEngine r1 w1) →
  heap σ !! r1 = Some (OSortedMap ritems) →
  heap σ !! w1 = Some (OSortedMap witems) →
  Forall (λ l, is_Some (list_at σ l)) witems.*2 →
  ∃ E2 r2 w2 witems2 σ',
    copy E1 σ = (Ret E2, σ', [])
    ∧ (E2 ∉ dom (heap σ)) ∧ (r2 ∉ dom (heap σ)) ∧ (w2 ∉ dom (heap σ))
    ∧ heap σ' !! E2 = Some (OEngine r2 w2)
    ∧ heap σ' !! r2 = Some (OSortedMap ritems)
    ∧ heap σ' !! w2 = Some (OSortedMap witems2)
    ∧ Forall (λ x, (x ∉ dom (heap σ)) ∧ is_Some (list_at σ' x)) witems2.*2
    ∧ (SortedMap.sorted witems = true →
       Forall2 (λ kv kv', kv'.1 = kv.1
                          ∧ list_at σ' kv'.2 = list_at σ kv.2)
         witems witems2).
Proof.
  intros HE Hr Hw Hlists. destruct σ as [h wd]. simpl in *.
  pose (r0 := fresh (dom h)). pose (h1 := <[r0 := OSortedMap []]> h).
  pose (w0 := fresh (dom h1)). pose (h2 := <[w0 := OSortedMap []]> h1).
  pose (e2 := fresh (dom h2)). pose (h3 := <[e2 := OEngine r0 w0]> h2).
  pose (r2 := fresh (dom h3)).
  pose (h4 := <[r2 := OSortedMap ritems]> h3).
  pose (h5 := <[e2 := OEngine r2 w0]> h4).
  pose (w2 := fresh (dom h5)). pose (h6 := <[w2 := OSortedMap []]> h5).
  pose (h7 := <[e2 := OEngine r2 w2]> h6).
  pose proof (is_fresh (dom h)) as Hr0. fold r0 in Hr0.
  pose proof (is_fresh (dom h1)) as Hw0. fold w0 in Hw0.
  pose proof (is_fresh (dom h2)) as He2. fold e2 in He2.
  pose proof (is_fresh (dom h3)) as Hr2. fold r2 in Hr2.
  pose proof (is_fresh (dom h5)) as Hw2. fold w2 in Hw2.
  assert (dom h1 = {[r0]} ∪ dom h) as Hd1 by apply dom_insert_L.
  assert (dom h2 = {[w0]} ∪ dom h1) as Hd2 by apply dom_insert_L.
  assert (dom h3 = {[e2]} ∪ dom h2) as Hd3 by apply dom_insert_L.
  assert (dom h4 = {[r2]} ∪ dom h3) as Hd4 by apply dom_insert_L.
  assert (dom h5 = {[e2]} ∪ dom h4) as Hd5 by apply dom_insert_L.
  assert (dom h6 = {[w2]} ∪ dom h5) as Hd6 by apply dom_insert_L.
  assert (dom h7 = {[e2]} ∪ dom h6) as Hd7 by apply dom_insert_L.
  assert (∀ x, x ∈ dom h → h3 !! x = h !! x) as Hold3.
  { intros x Hx. unfold h3, h2, h1.
    rewrite !lookup_insert_ne; [done | set_solver ..]. }
  assert (∀ x, x ∈ dom h → h7 !! x = h !! x) as Hold7.
  { intros x Hx. rewrite <- (Hold3 x Hx). unfold h7, h6, h5, h4.
    rewrite !lookup_insert_ne; [done | set_solver ..]. }
  assert (∀ x ob, h !! x = Some ob → x ∈ dom h) as Hin.
  { intros x ob Hx. apply elem_of_dom. by eexists. }
  set (σ3 := Store h3 wd). set (σ4 := Store h4 wd).
  set (σ5 := Store h5 wd). set (σ6 := Store h6 wd).
  set (σ7 := Store h7 wd).
  assert (@new_ExpressionEngine World Owner Change HExn (Store h wd)
          = (Ret e2, σ3, [])) as HA by reflexivity.
  assert (@get_read_handlers World Owner Change HExn E1 σ3
          = (Ret r1, σ3, [])) as HB.
  { apply (run_engine_member σ3 E1 r1 w1). simpl.
    rewrite Hold3; eauto. }
  assert (@sortedmap_copy World Owner Change HExn r1 σ3
          = (Ret r2, σ4, [])) as HC.
  { unfold sortedmap_copy.
    rewrite run_bind, (run_sortedmap_items σ3 r1 ritems); [done|].
    simpl. rewrite Hold3; eauto. }
  assert (@set_read_handlers World Owner Change HExn e2 r2 σ4
          = (Ret tt, σ5, [])) as HD.
  { apply (run_set_member σ4 e2 r0 w0 r2 ritems); simpl; unfold h4.
    - rewrite lookup_insert_ne by set_solver. apply lookup_insert_eq.
    - apply lookup_insert_eq. }
  assert (@sortedmap_new World Owner Change HExn σ5 = (Ret w2, σ6, []))
    as HF by reflexivity.
  assert (@set_write_handlers World Owner Change HExn e2 w2 σ6
          = (Ret tt, σ7, [])) as HG.
  { apply (run_set_member σ6 e2 r2 w0 w2 []); simpl; unfold h6.
    - rewrite lookup_insert_ne by set_solver. apply lookup_insert_eq.
    - apply lookup_insert_eq. }
  assert (@get_write_handlers World Owner Change HExn E1 σ7
          = (Ret w1, σ7, [])) as HH.
  { apply (run_engine_member σ7 E1 r1 w1). simpl. rewrite Hold7; eauto. }
  assert (@sortedmap_items World Owner Change HExn w1 σ7
          = (Ret witems, σ7, [])) as HI.
  { apply run_sortedmap_items. simpl. rewrite Hold7; eauto. }
  assert (∀ x, is_Some (list_at (Store h wd) x) →
               list_at σ7 x = list_at (Store h wd) x) as Hl7.
  { intros x Hx. apply list_at_heap. simpl. apply Hold7.
    by apply list_at_dom in Hx. }
  destruct (copy_loop_spec w2 witems [] σ7) as
    (σ' & witems2 & Hloop & Hw2' & Hvals & Hsorted).
  { simpl. unfold h7. rewrite lookup_insert_ne by set_solver.
    apply lookup_insert_eq. }
  { eapply Forall_impl; [exact Hlists|]. intros x Hx. by rewrite Hl7. }
  destruct (keeps_for_items (dom h7 ∖ {[w2]}) (copy_item w2) witems)
    with (σ := σ7) as (_ & _ & _ & Hkeep & _).
  { intros k v. apply keeps_copy_item. set_solver. }
  { set_solver. }
  rewrite Hloop in Hkeep. simpl in Hkeep.
  exists e2, r2, w2, witems2, σ'. split; [|repeat split].
  - unfold copy.
    rewrite run_bind, HA, run_bind, HB, run_bind, HC, run_bind, HD.
    rewrite run_bind, HF, run_bind, HG, run_bind, HH, run_bind, HI.
    rewrite run_bind. unfold copy_item in Hloop.
    by rewrite Hloop.
  - set_solver.
  - set_solver.
  - set_solver.
  - rewrite Hkeep by set_solver. apply lookup_insert_eq.
  - rewrite Hkeep by set_solver. unfold h7, h6, h5.
    rewrite !lookup_insert_ne by set_solver. apply lookup_insert_eq.
  - done.
  - eapply Forall_impl; [exact Hvals|]. simpl.
    intros x [Hx|[Hx Hlx]]; [by apply elem_of_nil in Hx|].
    split; [set_solver | done].
  - intros Hsort. destruct Hsorted as (new & -> & Hnew); [done..|].
    simpl. clear -Hnew Hlists Hl7.
    induction Hnew as [|kv kv' m m' [Hk HR] _ IHF]; [done|].
    simpl in Hlists. apply Forall_cons in Hlists as [Hkv Hlists].
    constructor; [|by apply IHF]. split; [done|]. by rewrite HR, Hl7.
Qed.

(** *** The registrations *)

Lemma run_member_cases σ E :
  @get_read_handlers World Owner Change HExn E σ =
    match heap σ !! E with
    | Some (OEngine r _) => (Ret r, σ, [])
    | Some _ => (Raise AttributeError, σ, [])
    | None => (Raise TypeError, σ, [])
    end
  ∧ @get_write_handlers World Owner Change HExn E σ =
    match heap σ !! E with
    | Some (OEngine _ w) => (Ret w, σ, [])
    | Some _ => (Raise AttributeError, σ, [])
    | None => (Raise TypeError, σ, [])
    end.
Proof.
  unfold get_read_handlers, get_write_handlers, get_obj.
  rewrite !run_bind. by destruct (heap σ !! E) as [[]|].
Qed.

Lemma run_items_cases σ m :
  @sortedmap_items World Owner Change HExn m σ =
  match heap σ !! m with
  | Some (OSortedMap items) => (Ret items, σ, [])
  | _ => (Raise TypeError, σ, [])
  end.
Proof.
  unfold sortedmap_items, get_obj. rewrite run_bind.
  by destruct (heap σ !! m) as [[]|].
Qed.

(** A registration on an engine writes to the maps of the engine and to
    the lists of its write map, or to what it allocates. *)
Lemma mutate_frame E μ σ :
  (mutate E μ σ).2 = []
  ∧ world (mutate E μ σ).1.2 = world σ
  ∧ ∀ x, x ∈ dom (heap σ) → x ∉ parts σ E →
         heap (mutate E μ σ).1.2 !! x = heap σ !! x.
Proof.
  assert (∀ x, x ∈ dom (heap σ) → fresh (dom (heap σ)) ≠ x) as Hfresh.
  { intros x Hx <-. by apply (is_fresh (dom (heap σ))). }
  destruct (run_member_cases σ E) as [Hgr Hgw].
  unfold parts.
  destruct μ as [name h|name h|name|name]; simpl;
    unfold set_read_handler, add_write_handler, remove_read_handler,
      remove_write_handlers;
    rewrite run_bind, ?Hgr, ?Hgw;
    destruct (heap σ !! E) as [[| |r w|]|]; try done.
  - unfold sortedmap_setitem. rewrite run_bind, run_items_cases.
    destruct (heap σ !! r) as [[items| | |]|]; try done. simpl.
    repeat split; try done. intros x Hx Hp.
    apply lookup_insert_ne. set_solver.
  - rewrite run_bind, run_items_cases.
    destruct (heap σ !! w) as [[items| | |]|] eqn:Hw; try done.
    destruct (SortedMap.getitem items name) as [l|] eqn:Hl.
    + unfold list_append. rewrite run_bind, run_list_elems.
      destruct (list_at σ l); [|done]. simpl.
      repeat split; try done. intros x Hx Hp.
      apply lookup_insert_ne. apply getitem_values in Hl. set_solver.
    + rewrite run_bind. unfold alloc, sortedmap_setitem.
      rewrite run_bind, run_items_cases. simpl.
      rewrite lookup_insert_ne, Hw.
      2:{ apply Hfresh, elem_of_dom. by eexists. }
      simpl. repeat split; try done. intros x Hx Hp.
      rewrite lookup_insert_ne by set_solver.
      apply lookup_insert_ne. by apply Hfresh.
  - unfold sortedmap_delitem. rewrite run_bind, run_items_cases.
    destruct (heap σ !! r) as [[items| | |]|]; try done.
    destruct (SortedMap.delitem items name); try done. simpl.
    repeat split; try done. intros x Hx Hp.
    apply lookup_insert_ne. set_solver.
  - unfold sortedmap_delitem. rewrite run_bind, run_items_cases.
    destruct (heap σ !! w) as [[items| | |]|]; try done.
    destruct (SortedMap.delitem items name); try done. simpl.
    repeat split; try done. intros x Hx Hp.
    apply lookup_insert_ne. set_solver.
Qed.

Lemma Forall2_values {A B} (R : A → B → Prop) (P : A → Prop) (Q : B → Prop)
    (m : list (string * A)) (m' : list (string * B)) :
  Forall2 (λ kv kv', kv'.1 = kv.1 ∧ R kv.2 kv'.2) m m' →
  Forall P m.*2 → Forall Q m'.*2 →
  Forall2 (λ kv kv', kv'.1 = kv.1 ∧ R kv.2 kv'.2 ∧ P kv.2 ∧ Q kv'.2) m m'.
Proof.
  induction 1 as [|kv kv' m m' [Hk HR] _ IH]; simpl; intros HP HQ; [done|].
  apply Forall_cons in HP as [HP HPs]. apply Forall_cons in HQ as [HQ HQs].
  constructor; [done | by apply IH].
Qed.

End StoreFacts.

Section Properties.
Context {World Owner Change Value HExn : Type}.
Variable call_read :
  ref → Owner → string → @store World → @outcome HExn Value * @store World.
Variable call_write :
  ref → Owner → string → Change → @store World
  → @outcome HExn unit * @store World.

Abbreviation store := (@store World).
Abbreviation call := (@call Owner Change).
Abbreviation M := (@M World Owner Change HExn).
Abbreviation read := (@read World Owner Change Value HExn call_read).
Abbreviation write := (@write World Owner Change HExn call_write).
Abbreviation copy := (@copy World Owner Change HExn).
Abbreviation mutate := (@mutate World Owner Change HExn).
Abbreviation for_in := (@for_in World Owner Change HExn).
Abbreviation invoke_read :=
  (@invoke_read World Owner Change Value HExn call_read).
Abbreviation invoke_write :=
  (@invoke_write World Owner Change HExn call_write).
Abbreviation run_quietly :=
  (@run_quietly World Owner Change HExn call_write).
Abbreviation keeps := (@keeps World Owner Change HExn).
Abbreviation copy_item := (@copy_item World Owner Change HExn).
Abbreviation for_items := (@for_items World Owner Change HExn).

Implicit Types (σ : store) (E l h : ref) (o : Owner) (n : string)
  (c : Change) (items : list (string * ref)) (hs : list ref).

(** [read] is the call of the handler the map holds at the name. *)
Lemma read_unfold σ E r w items o n :
  heap σ !! E = Some (OEngine r w) →
  heap σ !! r = Some (OSortedMap items) →
  read E o n σ =
  match SortedMap.getitem items n with
  | Some h => invoke_read h o n σ
  | None => (Raise (KeyError n), σ, [])
  end.
Proof.
  intros HE Hr. unfold read. rewrite run_bind.
  rewrite (proj1 (run_engine_member σ E r w HE)).
  rewrite run_bind, (run_getitem σ r items n Hr).
  destruct (SortedMap.getitem items n) as [h|]; [|done].
  by destruct (invoke_read h o n σ) as [[? ?] ?].
Qed.

(** [write] is the loop over the list the map holds at the name. *)
Lemma write_unfold σ E r w items fuel o n c :
  heap σ !! E = Some (OEngine r w) →
  heap σ !! w = Some (OSortedMap items) →
  write fuel E o n c σ =
  match SortedMap.getitem items n with
  | Some l => for_in fuel l 0 (λ h, invoke_write h o n c) σ
  | None => (Raise (KeyError n), σ, [])
  end.
Proof.
  intros HE Hw. unfold write. rewrite run_bind.
  rewrite (proj2 (run_engine_member σ E r w HE)).
  rewrite run_bind, (run_getitem σ w items n Hw).
  destruct (SortedMap.getitem items n) as [l|]; [|done].
  by destruct (for_in fuel l 0 _ σ) as [[? ?] ?].
Qed.

Lemma for_in_unfold fuel l i (body : ref → M unit) σ :
  for_in fuel l i body σ =
  match list_at σ l with
  | None => (Raise TypeError, σ, [])
  | Some hs =>
      match hs !! i with
      | None => (Ret tt, σ, [])
      | Some h =>
          match fuel with
          | O => (Diverge, σ, [])
          | S fuel' => (body h ≫= λ _, for_in fuel' l (S i) body) σ
          end
      end
  end.
Proof.
  destruct fuel; simpl; rewrite run_bind, run_list_elems;
    destruct (list_at σ l) as [hs|]; try done;
    destruct (hs !! i); try done.
  by destruct ((body r ≫= _) σ) as [[? ?] ?].
Qed.

Lemma run_invoke_write h o n c σ r σ' :
  call_write h o n c σ = (r, σ') →
  invoke_write h o n c σ = (r, σ', [CallWrite h o n c]).
Proof. intros H. unfold invoke_write. by rewrite H. Qed.

(** A prefix of the chain that runs quietly is called handler by handler,
    and the loop goes on behind it from the store it ends in. *)
Lemma for_in_quiet l o n c pre :
  ∀ done rest σ σi k,
    list_at σ l = Some (done ++ pre ++ rest) →
    run_quietly l (done ++ pre ++ rest) o n c pre σ = Some σi →
    list_at σi l = Some (done ++ pre ++ rest)
    ∧ for_in (length pre + k) l (length done)
        (λ h, invoke_write h o n c) σ =
      (let '(r, σ', t) :=
         for_in k l (length done + length pre)
           (λ h, invoke_write h o n c) σi in
       (r, σ', ((λ h, CallWrite h o n c) <$> pre) ++ t)).
Proof.
  induction pre as [|h pre IH]; intros done rest σ σi k Hl Hrun.
  - simpl in Hrun. injection Hrun as <-. split; [done|].
    simpl. rewrite Nat.add_0_r.
    by destruct (for_in k l (length done) _ σ) as [[? ?] ?].
  - assert (done ++ (h :: pre) ++ rest = (done ++ [h]) ++ pre ++ rest)
      as Heq by by rewrite <- app_assoc.
    rewrite Heq in *. simpl in Hrun.
    destruct (call_write h o n c σ) as [[[]| |] σ1] eqn:Hcall; try done.
    case_decide as Hl1; [|done].
    destruct (IH (done ++ [h]) rest σ1 σi k Hl1 Hrun) as [Hli Hfor].
    split; [done|].
    change (length (h :: pre) + k) with (S (length pre + k)).
    rewrite for_in_unfold, Hl.
    replace (((done ++ [h]) ++ pre ++ rest) !! length done) with (Some h).
    2:{ rewrite <- app_assoc. symmetry. apply list_lookup_middle. done. }
    rewrite run_bind, (run_invoke_write _ _ _ _ _ _ _ Hcall).
    replace (S (length done)) with (length (done ++ [h]))
      by (rewrite length_app; simpl; lia).
    rewrite Hfor.
    replace (length done + length (h :: pre))
      with (length (done ++ [h]) + length pre)
      by (rewrite length_app; simpl; lia).
    by destruct (for_in k l _ _ σi) as [[? ?] ?].
Qed.

(** Whatever the handlers do, every call of a loop of [write] carries
    the arguments of the [write]. *)
Lemma for_in_calls_carry_arguments l o n c fuel :
  ∀ i σ,
    Forall (λ k : call, ∃ h, k = CallWrite h o n c)
      (for_in fuel l i (λ h, invoke_write h o n c) σ).2.
Proof.
  induction fuel as [|fuel IH]; intros i σ; rewrite for_in_unfold;
    destruct (list_at σ l) as [hs|]; try by constructor.
  - destruct (hs !! i); by constructor.
  - destruct (hs !! i) as [h|]; [|by constructor].
    rewrite run_bind. unfold invoke_write at 1.
    destruct (call_write h o n c σ) as [[[]| |] σ1];
      try (constructor; [by eexists | constructor]).
    specialize (IH (S i) σ1).
    destruct (for_in fuel l (S i) _ σ1) as [[? ?] t]. simpl in *.
    constructor; [by eexists | done].
Qed.

(** A property of the store that no handler call breaks is not broken by
    the loop either. *)
Lemma for_in_invariant (P : store → Prop) l o n c :
  (∀ h σ, P σ → P (call_write h o n c σ).2) →
  ∀ fuel i σ, P σ → P (for_in fuel l i (λ h, invoke_write h o n c) σ).1.2.
Proof.
  intros Hcall. induction fuel as [|fuel IH]; intros i σ HP;
    rewrite for_in_unfold; destruct (list_at σ l) as [hs|]; try done.
  - by destruct (hs !! i).
  - destruct (hs !! i) as [h|]; [|done].
    rewrite run_bind. unfold invoke_write at 1.
    specialize (Hcall h σ HP).
    destruct (call_write h o n c σ) as [[[]| |] σ1]; try done.
    specialize (IH (S i) σ1 Hcall).
    by destruct (for_in fuel l (S i) _ σ1) as [[? ?] ?].
Qed.

Lemma write_invariant (P : store → Prop) o n c :
  (∀ h σ, P σ → P (call_write h o n c σ).2) →
  ∀ fuel E σ, P σ → P (write fuel E o n c σ).1.2.
Proof.
  intros Hcall fuel E σ HP. unfold write.
  rewrite run_bind. unfold get_write_handlers, get_obj at 1.
  rewrite run_bind.
  destruct (heap σ !! E) as [[| |r w|]|]; try done. simpl.
  rewrite run_bind. unfold sortedmap_getitem, sortedmap_items, get_obj.
  rewrite !run_bind.
  destruct (heap σ !! w) as [[items| | |]|]; try done. simpl.
  destruct (SortedMap.getitem items n) as [l|]; [|done]. simpl.
  pose proof (for_in_invariant P l o n c Hcall fuel 0 σ HP).
  by destruct (for_in fuel l 0 _ σ) as [[? ?] ?].
Qed.

Lemma read_invariant (P : store → Prop) o n :
  (∀ h σ, P σ → P (call_read h o n σ).2) →
  ∀ E σ, P σ → P (read E o n σ).1.2.
Proof.
  intros Hcall E σ HP. unfold read.
  rewrite run_bind. unfold get_read_handlers, get_obj at 1.
  rewrite run_bind.
  destruct (heap σ !! E) as [[| |r w|]|]; try done. simpl.
  rewrite run_bind. unfold sortedmap_getitem, sortedmap_items, get_obj.
  rewrite !run_bind.
  destruct (heap σ !! r) as [[items| | |]|]; try done. simpl.
  destruct (SortedMap.getitem items n) as [h|]; [|done]. simpl.
  unfold invoke_read. specialize (Hcall h σ HP).
  by destruct (call_read h o n σ) as [? ?].
Qed.

(** *** Dispatch *)

(** C1. When the read map of the engine holds the handler [h] at the name
    [n], [read(owner, n)] makes exactly one call, of [h] with
    [(owner, n)], and its result and store are those of that call, for
    every owner. *)
Theorem read_invokes_bound_handler σ E r w items o n h :
  heap σ !! E = Some (OEngine r w) →
  heap σ !! r = Some (OSortedMap items) →
  SortedMap.getitem items n = Some h →
  read E o n σ =
  (let '(v, σ') := call_read h o n σ in (v, σ', [CallRead h o n])).
Proof.
  intros HE Hr Hh. rewrite (read_unfold σ E r w items o n HE Hr), Hh.
  reflexivity.
Qed.

(** C6. When the read map of the engine holds nothing at the name [m],
    [read(owner, m)] raises the KeyError of the map lookup (the spec's
    NoReadHandler) to its caller: no handler is called, the store is
    untouched and no value is returned. *)
Theorem read_unbound_raises σ E r w items o m :
  heap σ !! E = Some (OEngine r w) →
  heap σ !! r = Some (OSortedMap items) →
  SortedMap.getitem items m = None →
  read E o m σ = (Raise (KeyError m), σ, []).
Proof.
  intros HE Hr Hm. by rewrite (read_unfold σ E r w items o m HE Hr), Hm.
Qed.

(** C3, amended. When the write map of the engine holds nothing at the
    name [m], [write(owner, m, c)] calls no handler and leaves the store
    untouched, but raises the KeyError of the map lookup; it returns
    without any effect when [m] is bound to an empty list. *)
Theorem write_unbound_raises σ E r w items fuel o m c :
  heap σ !! E = Some (OEngine r w) →
  heap σ !! w = Some (OSortedMap items) →
  (SortedMap.getitem items m = None →
   write fuel E o m c σ = (Raise (KeyError m), σ, []))
  ∧ (∀ l, SortedMap.getitem items m = Some l →
          list_at σ l = Some [] →
          write fuel E o m c σ = (Ret tt, σ, [])).
Proof.
  intros HE Hw. rewrite (write_unfold σ E r w items fuel o m c HE Hw).
  split.
  - by intros ->.
  - intros l -> Hl. by rewrite for_in_unfold, Hl.
Qed.

(** C2. When the chain of the engine at [n] is the list [h1, h2, h3] and
    each of the three returns and leaves that list as it is,
    [write(owner, n, c)] calls [h1], then [h2], then [h3], each with
    [(owner, n, c)], and nothing else.  Whatever the handlers do, every
    call that a [write] makes carries its [(owner, n, c)]. *)
Theorem write_invokes_chain_in_order σ E r w items o n c l h1 h2 h3 :
  heap σ !! E = Some (OEngine r w) →
  heap σ !! w = Some (OSortedMap items) →
  SortedMap.getitem items n = Some l →
  list_at σ l = Some [h1; h2; h3] →
  (∀ fuel σ1 σ2 σ3,
     call_write h1 o n c σ = (Ret tt, σ1) →
     list_at σ1 l = Some [h1; h2; h3] →
     call_write h2 o n c σ1 = (Ret tt, σ2) →
     list_at σ2 l = Some [h1; h2; h3] →
     call_write h3 o n c σ2 = (Ret tt, σ3) →
     list_at σ3 l = Some [h1; h2; h3] →
     3 ≤ fuel →
     write fuel E o n c σ =
     (Ret tt, σ3,
      [CallWrite h1 o n c; CallWrite h2 o n c; CallWrite h3 o n c]))
  ∧ (∀ fuel,
       Forall (λ k : call, ∃ h, k = CallWrite h o n c)
         (write fuel E o n c σ).2).
Proof.
  intros HE Hw Hn Hl. split.
  - intros fuel σ1 σ2 σ3 H1 Hl1 H2 Hl2 H3 Hl3 Hfuel.
    rewrite (write_unfold σ E r w items fuel o n c HE Hw), Hn.
    assert (run_quietly l ([] ++ [h1; h2; h3] ++ []) o n c [h1; h2; h3] σ
            = Some σ3) as Hrun.
    { simpl. rewrite H1, decide_True by done.
      rewrite H2, decide_True by done. by rewrite H3, decide_True. }
    destruct (for_in_quiet l o n c [h1; h2; h3] [] [] σ σ3 (fuel - 3)
                Hl Hrun) as [_ Hfor].
    replace (length [h1; h2; h3] + (fuel - 3)) with fuel in Hfor
      by (simpl; lia).
    simpl in Hfor. rewrite Hfor, for_in_unfold, Hl3. reflexivity.
  - intros fuel.
    rewrite (write_unfold σ E r w items fuel o n c HE Hw), Hn.
    apply for_in_calls_carry_arguments.
Qed.

(** C7. When the chain at [n] is [pre ++ hi :: post], the handlers of
    [pre] return (leaving the list as it is) and [hi] raises [e], then
    [write(owner, n, c)] raises that same [e] from the store [hi] left,
    and has called the handlers of [pre] and [hi] and none of [post]. *)
Theorem write_failure_aborts_chain σ E r w items fuel o n c l
    pre hi post σi σ' e :
  heap σ !! E = Some (OEngine r w) →
  heap σ !! w = Some (OSortedMap items) →
  SortedMap.getitem items n = Some l →
  list_at σ l = Some (pre ++ hi :: post) →
  run_quietly l (pre ++ hi :: post) o n c pre σ = Some σi →
  call_write hi o n c σi = (Raise e, σ') →
  length pre < fuel →
  write fuel E o n c σ =
  (Raise e, σ', (λ h, CallWrite h o n c) <$> (pre ++ [hi])).
Proof.
  intros HE Hw Hn Hl Hrun Hhi Hfuel.
  rewrite (write_unfold σ E r w items fuel o n c HE Hw), Hn.
  destruct (for_in_quiet l o n c pre [] (hi :: post) σ σi
              (fuel - length pre) Hl Hrun) as [Hli Hfor].
  replace (length pre + (fuel - length pre)) with fuel in Hfor by lia.
  simpl in Hfor, Hli. rewrite Hfor, for_in_unfold, Hli.
  rewrite list_lookup_middle by done.
  destruct (fuel - length pre) as [|k] eqn:Hk; [lia|].
  rewrite run_bind, (run_invoke_write _ _ _ _ _ _ _ Hhi).
  by rewrite fmap_app.
Qed.

(** C9. [read] and [write] change nothing of the engine themselves: when
    the handler calls leave the engine, its two maps and the lists of its
    chains as they are, each of these objects is, after [read] and after
    [write], exactly as before, whether they return or raise. *)
Theorem dispatch_leaves_engine_unchanged σ E :
  (∀ x h o n σ', x ∈ E :: parts σ E →
     heap (call_read h o n σ').2 !! x = heap σ' !! x) →
  (∀ x h o n c σ', x ∈ E :: parts σ E →
     heap (call_write h o n c σ').2 !! x = heap σ' !! x) →
  ∀ x, x ∈ E :: parts σ E →
    (∀ o n, heap (read E o n σ).1.2 !! x = heap σ !! x)
    ∧ (∀ fuel o n c, heap (write fuel E o n c σ).1.2 !! x = heap σ !! x).
Proof.
  intros Hread Hwrite x Hx. split.
  - intros o n.
    apply (read_invariant (λ σ', heap σ' !! x = heap σ !! x) o n);
      [|done].
    intros h σ' HP. by rewrite Hread.
  - intros fuel o n c.
    apply (write_invariant (λ σ', heap σ' !! x = heap σ !! x) o n c);
      [|done].
    intros h σ' HP. by rewrite Hwrite.
Qed.

(** *** Two runs of the loop side by side *)

(** Two loops, over lists that hold the same elements in stores the
    handlers cannot tell apart, make the same calls with the same
    result. *)
Lemma for_in_sim (R : store → store → Prop) la lb o n c :
  (∀ σa σb, R σa σb → list_at σa la = list_at σb lb) →
  (∀ h σa σb, R σa σb →
     (call_write h o n c σa).1 = (call_write h o n c σb).1
     ∧ R (call_write h o n c σa).2 (call_write h o n c σb).2) →
  ∀ fuel i σa σb, R σa σb →
    (for_in fuel la i (λ h, invoke_write h o n c) σa).1.1
    = (for_in fuel lb i (λ h, invoke_write h o n c) σb).1.1
    ∧ (for_in fuel la i (λ h, invoke_write h o n c) σa).2
      = (for_in fuel lb i (λ h, invoke_write h o n c) σb).2
    ∧ R (for_in fuel la i (λ h, invoke_write h o n c) σa).1.2
        (for_in fuel lb i (λ h, invoke_write h o n c) σb).1.2.
Proof.
  intros Hlist Hcall. induction fuel as [|fuel IH]; intros i σa σb HR;
    rewrite !for_in_unfold, (Hlist σa σb HR);
    destruct (list_at σb lb) as [hs|]; try done;
    destruct (hs !! i) as [h|]; try done.
  rewrite !run_bind.
  destruct (Hcall h σa σb HR) as [Hres HR1].
  destruct (call_write h o n c σa) as [ra σa1] eqn:Ha.
  destruct (call_write h o n c σb) as [rb σb1] eqn:Hb.
  rewrite (run_invoke_write _ _ _ _ _ _ _ Ha).
  rewrite (run_invoke_write _ _ _ _ _ _ _ Hb).
  simpl in Hres, HR1. subst rb. destruct ra as [[]| |]; try done.
  destruct (IH (S i) σa1 σb1 HR1) as (Ho & Ht & HR2).
  destruct (for_in fuel la (S i) _ σa1) as [[? ?] ?].
  destruct (for_in fuel lb (S i) _ σb1) as [[? ?] ?].
  simpl in *. by subst.
Qed.

(** What the dispatch of an engine shows depends on the world, on the
    engine, on its maps and on the elements of its lists only, when the
    handlers look at nothing else. *)
Lemma dispatch_agree σa σb E r w ritems witems :
  world_driven_read call_read →
  world_driven_write call_write →
  keeps_lists call_write →
  world σa = world σb →
  heap σa !! E = Some (OEngine r w) → heap σb !! E = Some (OEngine r w) →
  heap σa !! r = Some (OSortedMap ritems) →
  heap σb !! r = Some (OSortedMap ritems) →
  heap σa !! w = Some (OSortedMap witems) →
  heap σb !! w = Some (OSortedMap witems) →
  Forall (λ l, is_Some (list_at σa l) ∧ list_at σb l = list_at σa l)
    witems.*2 →
  ∀ o n,
    observe (read E o n σa) = observe (read E o n σb)
    ∧ ∀ fuel c,
        observe (write fuel E o n c σa) = observe (write fuel E o n c σb).
Proof.
  intros Hwr Hww Hkl Hworld HEa HEb Hra Hrb Hwa Hwb Hlists o n. split.
  - rewrite (read_unfold σa E r w ritems o n HEa Hra).
    rewrite (read_unfold σb E r w ritems o n HEb Hrb).
    destruct (SortedMap.getitem ritems n) as [h|];
      [|unfold observe; simpl; by rewrite Hworld].
    unfold invoke_read, observe.
    destruct (Hwr h o n σa σb Hworld) as [Hres Hw'].
    destruct (call_read h o n σa), (call_read h o n σb). simpl in *.
    by rewrite Hres, Hw'.
  - intros fuel c.
    rewrite (write_unfold σa E r w witems fuel o n c HEa Hwa).
    rewrite (write_unfold σb E r w witems fuel o n c HEb Hwb).
    destruct (SortedMap.getitem witems n) as [l|] eqn:Hl;
      [|unfold observe; simpl; by rewrite Hworld].
    apply getitem_values in Hl.
    rewrite Forall_forall in Hlists.
    destruct (Hlists l Hl) as [[hs Hhs] Hlb]. rewrite Hhs in Hlb.
    destruct (for_in_sim
                (λ σ1 σ2, world σ1 = world σ2 ∧ list_at σ1 l = Some hs
                          ∧ list_at σ2 l = Some hs) l l o n c)
      with (fuel := fuel) (i := 0) (σa := σa) (σb := σb)
      as (Ho & Ht & HR & _).
    + intros σ1 σ2 (_ & H1 & H2). by rewrite H1, H2.
    + intros h σ1 σ2 (HW & H1 & H2).
      destruct (Hww h o n c σ1 σ2 HW) as [Hres Hw'].
      repeat split; try done; by apply Hkl.
    + done.
    + unfold observe. by rewrite Ho, Ht, HR.
Qed.

(** A registration on one engine does not show in the dispatch of an
    engine that shares no map and no list with it. *)
Lemma mutate_keeps_other σ Ea Eb r w ritems witems μ :
  world_driven_read call_read →
  world_driven_write call_write →
  keeps_lists call_write →
  heap σ !! Eb = Some (OEngine r w) →
  heap σ !! r = Some (OSortedMap ritems) →
  heap σ !! w = Some (OSortedMap witems) →
  Forall (λ l, is_Some (list_at σ l)) witems.*2 →
  (∀ x, x ∈ Eb :: r :: w :: witems.*2 → x ∉ parts σ Ea) →
  ∀ o n,
    observe (read Eb o n (mutate Ea μ σ).1.2) = observe (read Eb o n σ)
    ∧ ∀ fuel c,
        observe (write fuel Eb o n c (mutate Ea μ σ).1.2)
        = observe (write fuel Eb o n c σ).
Proof.
  intros Hwr Hww Hkl HE Hr Hw Hlists Hapart.
  destruct (@mutate_frame World Owner Change HExn Ea μ σ) as (_ & Hworld & Hframe).
  assert (∀ x, x ∈ Eb :: r :: w :: witems.*2 →
               heap (mutate Ea μ σ).1.2 !! x = heap σ !! x) as Hsame.
  { intros x Hx. apply Hframe; [|by apply Hapart].
    apply elem_of_dom.
    rewrite !elem_of_cons in Hx. destruct Hx as [->|[->|[->|Hx]]]; eauto.
    rewrite Forall_forall in Hlists. apply elem_of_dom.
    by apply list_at_dom, Hlists. }
  apply (dispatch_agree _ _ Eb r w ritems witems); try done.
  - rewrite Hsame; [done | set_solver].
  - rewrite Hsame; [done | set_solver].
  - rewrite Hsame; [done | set_solver].
  - apply Forall_forall. intros l Hl.
    rewrite (list_at_heap σ (mutate Ea μ σ).1.2 l) by (apply Hsame; set_solver).
    split; [|done]. rewrite Forall_forall in Hlists. by apply Hlists.
Qed.

(** *** The copy *)

(** C10. [copy] changes nothing of what was there: every object of the
    store before the copy (the source engine, its two maps and each of
    its lists among them) is the same object with the same content after
    it, the world is the same, and no handler was called. *)
Theorem copy_leaves_source_unchanged σ E1 x :
  is_Some (heap σ !! x) →
  heap (copy E1 σ).1.2 !! x = heap σ !! x
  ∧ world (copy E1 σ).1.2 = world σ
  ∧ (copy E1 σ).2 = [].
Proof.
  intros Hx.
  destruct (@keeps_copy World Owner Change HExn (dom (heap σ)) E1 σ) as (Ht & Hw & _ & Hobj & _);
    [done|].
  repeat split; try done. apply Hobj. by apply elem_of_dom.
Qed.

(** C8. For an engine whose maps are in the store, with a write map in
    key order that holds lists, [copy] returns an engine [E2] such that:
    its read map is a new object with the very items of the read map of
    the source (same keys, same handler references); its write map is a
    new object with the same keys in the same order, and at each key a
    list that is a new object, different from the list of the source at
    that key, with the same handler references in the same order. *)
Theorem copy_shares_handlers_and_duplicates_lists σ E1 r1 w1 ritems witems :
  heap σ !! E1 = Some (OEngine r1 w1) →
  heap σ !! r1 = Some (OSortedMap ritems) →
  heap σ !! w1 = Some (OSortedMap witems) →
  SortedMap.sorted witems = true →
  Forall (λ l, is_Some (list_at σ l)) witems.*2 →
  ∃ E2 r2 w2 witems2 σ',
    copy E1 σ = (Ret E2, σ', [])
    ∧ heap σ' !! E2 = Some (OEngine r2 w2)
    ∧ (r2 ∉ dom (heap σ)) ∧ r2 ≠ r1
    ∧ heap σ' !! r2 = Some (OSortedMap ritems)
    ∧ (w2 ∉ dom (heap σ)) ∧ w2 ≠ w1
    ∧ heap σ' !! w2 = Some (OSortedMap witems2)
    ∧ witems2.*1 = witems.*1
    ∧ Forall2 (λ kv kv',
                 kv'.1 = kv.1
                 ∧ (kv'.2 ∉ dom (heap σ))
                 ∧ kv'.2 ≠ kv.2
                 ∧ ∃ hs, list_at σ kv.2 = Some hs
                         ∧ list_at σ' kv'.2 = Some hs)
        witems witems2.
Proof.
  intros HE Hr Hw Hsort Hlists.
  destruct (@copy_spec World Owner Change HExn σ E1 r1 w1 ritems witems
            HE Hr Hw Hlists) as
    (E2 & r2 & w2 & witems2 & σ' & Hcopy & HE2 & Hr2 & Hw2 & HE2' & Hr2'
     & Hw2' & Hvals & Hsorted).
  specialize (Hsorted Hsort).
  exists E2, r2, w2, witems2, σ'. repeat split; try done.
  - intros ->. apply Hr2, elem_of_dom. by eexists.
  - intros ->. apply Hw2, elem_of_dom. by eexists.
  - clear -Hsorted. induction Hsorted as [|kv kv' m m' [Hk _] _ IH]; [done|].
    rewrite !fmap_cons. by f_equal.
  - pose proof (Forall2_values (λ l l', list_at σ' l' = list_at σ l)
                  _ _ _ _ Hsorted Hlists Hvals) as HF.
    eapply Forall2_impl; [exact HF|]. simpl.
    intros kv kv' (Hk & HR & [hs Hhs] & Hfresh & _).
    repeat split; try done.
    + intros Heq. rewrite Heq in Hfresh. apply Hfresh.
      apply list_at_dom. by eexists.
    + exists hs. by rewrite HR.
Qed.

(** C5. Right after [E2 = E1.copy()], for every name and owner,
    [E2.read] is [E1.read]: same call, same result; and, with handlers
    that leave the lists alone, [E2.write] is [E1.write]: the same calls
    of the same handlers in the same order with the same arguments, and
    the same result. *)
Theorem copy_preserves_dispatch σ E1 r1 w1 ritems witems :
  heap σ !! E1 = Some (OEngine r1 w1) →
  heap σ !! r1 = Some (OSortedMap ritems) →
  heap σ !! w1 = Some (OSortedMap witems) →
  SortedMap.sorted witems = true →
  Forall (λ l, is_Some (list_at σ l)) witems.*2 →
  ∃ E2 σ',
    copy E1 σ = (Ret E2, σ', [])
    ∧ (∀ o n, read E2 o n σ' = read E1 o n σ')
    ∧ (keeps_lists call_write →
       ∀ fuel o n c, write fuel E2 o n c σ' = write fuel E1 o n c σ').
Proof.
  intros HE Hr Hw Hsort Hlists.
  destruct (@copy_spec World Owner Change HExn σ E1 r1 w1 ritems witems
            HE Hr Hw Hlists) as
    (E2 & r2 & w2 & witems2 & σ' & Hcopy & HE2 & Hr2 & Hw2 & HE2' & Hr2'
     & Hw2' & Hvals & Hsorted).
  specialize (Hsorted Hsort).
  destruct (@keeps_copy World Owner Change HExn (dom (heap σ)) E1 σ) as (_ & _ & _ & Hobj & _);
    [done|].
  rewrite Hcopy in Hobj. simpl in Hobj.
  assert (∀ x ob, heap σ !! x = Some ob → heap σ' !! x = Some ob) as Hold.
  { intros x ob Hx. rewrite Hobj; [done|]. apply elem_of_dom. by eexists. }
  exists E2, σ'. split; [done|]. split.
  - intros o n.
    rewrite (read_unfold σ' E2 r2 w2 ritems o n HE2' Hr2').
    by rewrite (read_unfold σ' E1 r1 w1 ritems o n (Hold _ _ HE) (Hold _ _ Hr)).
  - intros Hkl fuel o n c.
    rewrite (write_unfold σ' E2 r2 w2 witems2 fuel o n c HE2' Hw2').
    rewrite (write_unfold σ' E1 r1 w1 witems fuel o n c
               (Hold _ _ HE) (Hold _ _ Hw)).
    pose proof (getitem_Forall2 (λ l l', list_at σ' l' = list_at σ l)
                  witems witems2 n Hsorted) as Hget.
    destruct (SortedMap.getitem witems n) as [l1|] eqn:Hl1;
      inversion Hget as [? l2 Hl12|]; subst; [|done].
    apply getitem_values in Hl1. rewrite Forall_forall in Hlists.
    destruct (Hlists l1 Hl1) as [hs Hhs]. rewrite Hhs in Hl12.
    assert (list_at σ' l1 = Some hs) as Hhs'.
    { rewrite <- Hhs. apply list_at_heap, Hobj. apply list_at_dom. by eexists. }
    destruct (for_in_sim
                (λ σa σb, σa = σb ∧ list_at σa l2 = Some hs
                          ∧ list_at σa l1 = Some hs) l2 l1 o n c)
      with (fuel := fuel) (i := 0) (σa := σ') (σb := σ')
      as (Ho & Ht & HR & _).
    + intros σa σb (<- & H2 & H1). by rewrite H1, H2.
    + intros h σa σb (<- & H2 & H1). repeat split; try done; by apply Hkl.
    + done.
    + destruct (for_in fuel l2 0 _ σ') as [[? ?] ?].
      destruct (for_in fuel l1 0 _ σ') as [[? ?] ?].
      simpl in *. by subst.
Qed.

(** C4. After [E2 = E1.copy()], a registration on one of the two engines
    (a read handler set, a write handler added, a binding removed) does
    not show in the dispatch of the other: with handlers that look at the
    world only and leave the lists alone, [write] and [read] of the other
    engine make the same calls with the same result as before the
    registration, for every name. *)
Theorem copy_engines_independent σ E1 r1 w1 ritems witems :
  world_driven_read call_read →
  world_driven_write call_write →
  keeps_lists call_write →
  heap σ !! E1 = Some (OEngine r1 w1) →
  heap σ !! r1 = Some (OSortedMap ritems) →
  heap σ !! w1 = Some (OSortedMap witems) →
  Forall (λ l, is_Some (list_at σ l)) witems.*2 →
  ∃ E2 σ1,
    copy E1 σ = (Ret E2, σ1, [])
    ∧ ∀ μ o n,
        (observe (read E1 o n (mutate E2 μ σ1).1.2)
         = observe (read E1 o n σ1)
         ∧ ∀ fuel c,
             observe (write fuel E1 o n c (mutate E2 μ σ1).1.2)
             = observe (write fuel E1 o n c σ1))
        ∧ (observe (read E2 o n (mutate E1 μ σ1).1.2)
           = observe (read E2 o n σ1)
           ∧ ∀ fuel c,
               observe (write fuel E2 o n c (mutate E1 μ σ1).1.2)
               = observe (write fuel E2 o n c σ1)).
Proof.
  intros Hwr Hww Hkl HE Hr Hw Hlists.
  destruct (@copy_spec World Owner Change HExn σ E1 r1 w1 ritems witems
            HE Hr Hw Hlists) as
    (E2 & r2 & w2 & witems2 & σ1 & Hcopy & HE2 & Hr2 & Hw2 & HE2' & Hr2'
     & Hw2' & Hvals & _).
  destruct (@keeps_copy World Owner Change HExn (dom (heap σ)) E1 σ) as (_ & _ & _ & Hobj & _);
    [done|].
  rewrite Hcopy in Hobj. simpl in Hobj.
  assert (∀ x ob, heap σ !! x = Some ob → x ∈ dom (heap σ)) as Hin.
  { intros x ob Hx. apply elem_of_dom. by eexists. }
  assert (∀ x ob, heap σ !! x = Some ob → heap σ1 !! x = Some ob) as Hold.
  { intros x ob Hx. rewrite Hobj; eauto. }
  rewrite Forall_forall in Hlists. rewrite Forall_forall in Hvals.
  assert (∀ l, l ∈ witems.*2 → is_Some (list_at σ1 l)) as Hlists1.
  { intros l Hl. rewrite (list_at_heap σ σ1 l); [by apply Hlists|].
    by apply Hobj, list_at_dom, Hlists. }
  assert (parts σ1 E1 = r1 :: w1 :: witems.*2) as Hp1.
  { unfold parts. by rewrite (Hold _ _ HE), (Hold _ _ Hw). }
  assert (parts σ1 E2 = r2 :: w2 :: witems2.*2) as Hp2.
  { unfold parts. by rewrite HE2', Hw2'. }
  assert (∀ x, x ∈ E1 :: r1 :: w1 :: witems.*2 → x ∈ dom (heap σ)) as Hin1.
  { intros x Hx. rewrite !elem_of_cons in Hx.
    destruct Hx as [->|[->|[->|Hx]]]; eauto. by apply list_at_dom, Hlists. }
  assert (∀ x, x ∈ E2 :: r2 :: w2 :: witems2.*2 → x ∉ dom (heap σ)) as Hout2.
  { intros x Hx. rewrite !elem_of_cons in Hx.
    destruct Hx as [->|[->|[->|Hx]]]; eauto. by apply Hvals. }
  exists E2, σ1. split; [done|]. intros μ o n. split.
  - apply (mutate_keeps_other σ1 E2 E1 r1 w1 ritems witems μ); eauto.
    + by apply Forall_forall.
    + intros x Hx Hx2. rewrite Hp2 in Hx2.
      apply (Hout2 x); [set_solver | by apply Hin1].
  - apply (mutate_keeps_other σ1 E1 E2 r2 w2 ritems witems2 μ); eauto.
    + apply Forall_forall. intros l Hl. by apply Hvals.
    + intros x Hx Hx1. rewrite Hp1 in Hx1.
      apply (Hout2 x Hx). apply Hin1. set_solver.
Qed.

End Properties.

(** ** More of the engine *)

Section MoreSortedMapFacts.
Context {V : Type}.
Implicit Types (m : list (string * V)) (k : string) (v : V).

Lemma setitem_NoDup m k v :
  NoDup m.*2 → v ∉ m.*2 → NoDup (SortedMap.setitem m k v).*2.
Proof.
  induction m as [|[k' v'] m IH]; simpl; intros Hm Hv.
  - apply NoDup_singleton.
  - apply NoDup_cons in Hm as [Hv' Hm].
    apply not_elem_of_cons in Hv as [Hne Hv].
    destruct (String.ltb k' k); [|destruct (String.eqb k' k)]; simpl.
    + apply NoDup_cons. split; [|by apply IH].
      intros Hin. apply setitem_values in Hin as [->|Hin]; done.
    + by apply NoDup_cons.
    + apply NoDup_cons. split.
      * apply not_elem_of_cons. done.
      * by apply NoDup_cons.
Qed.

(** Key order is a matter of the keys. *)
Lemma sorted_Forall2 {V'} (R : V → V' → Prop) m (m' : list (string * V')) :
  Forall2 (λ kv kv', kv'.1 = kv.1 ∧ R kv.2 kv'.2) m m' →
  SortedMap.sorted m' = SortedMap.sorted m.
Proof.
  induction 1 as [|[k1 v1] [k2 v2] m m' [Hk _] Hrest IH]; simpl in *;
    [done|].
  subst k2. rewrite IH. f_equal.
  clear IH. induction Hrest as [|kv kv' m m' [Hk _] _ IH]; simpl; [done|].
  by rewrite Hk, IH.
Qed.
End MoreSortedMapFacts.

Section MoreStoreFacts.
Context {World Owner Change HExn : Type}.

Abbreviation store := (@store World).
Abbreviation copy := (@copy World Owner Change HExn).
Abbreviation copy_item := (@copy_item World Owner Change HExn).
Abbreviation for_items := (@for_items World Owner Change HExn).

Implicit Types (σ : store) (E l h : ref) (n : string)
  (items : list (string * ref)) (hs : list ref).

(** [copy] up to its loop: the new engine with a copy of the read map
    and an empty write map, and nothing of the store before changed. *)
Lemma copy_prefix σ E1 r1 w1 ritems witems :
  heap σ !! E1 = Some (OEngine r1 w1) →
  heap σ !! r1 = Some (OSortedMap ritems) →
  heap σ !! w1 = Some (OSortedMap witems) →
  ∃ E2 r2 w2 σ7,
    (∀ res σ' t,
       for_items witems (copy_item w2) σ7 = (res, σ', t) →
       copy E1 σ =
       (match res with
        | Ret _ => Ret E2
        | Raise e => Raise e
        | Diverge => Diverge
        end, σ', t))
    ∧ heap σ7 !! E2 = Some (OEngine r2 w2)
    ∧ heap σ7 !! r2 = Some (OSortedMap ritems)
    ∧ heap σ7 !! w2 = Some (OSortedMap [])
    ∧ dom (heap σ) ⊆ dom (heap σ7)
    ∧ (E2 ∉ dom (heap σ)) ∧ (r2 ∉ dom (heap σ)) ∧ (w2 ∉ dom (heap σ))
    ∧ (∀ x, x ∈ dom (heap σ) → heap σ7 !! x = heap σ !! x)
    ∧ r2 ≠ w2.
Proof.
  intros HE Hr Hw. destruct σ as [h wd]. simpl in *.
  pose (r0 := fresh (dom h)). pose (h1 := <[r0 := OSortedMap []]> h).
  pose (w0 := fresh (dom h1)). pose (h2 := <[w0 := OSortedMap []]> h1).
  pose (e2 := fresh (dom h2)). pose (h3 := <[e2 := OEngine r0 w0]> h2).
  pose (r2 := fresh (dom h3)).
  pose (h4 := <[r2 := OSortedMap ritems]> h3).
  pose (h5 := <[e2 := OEngine r2 w0]> h4).
  pose (w2 := fresh (dom h5)). pose (h6 := <[w2 := OSortedMap []]> h5).
  pose (h7 := <[e2 := OEngine r2 w2]> h6).
  pose proof (is_fresh (dom h)) as Hr0. fold r0 in Hr0.
  pose proof (is_fresh (dom h1)) as Hw0. fold w0 in Hw0.
  pose proof (is_fresh (dom h2)) as He2. fold e2 in He2.
  pose proof (is_fresh (dom h3)) as Hr2. fold r2 in Hr2.
  pose proof (is_fresh (dom h5)) as Hw2. fold w2 in Hw2.
  assert (dom h1 = {[r0]} ∪ dom h) as Hd1 by apply dom_insert_L.
  assert (dom h2 = {[w0]} ∪ dom h1) as Hd2 by apply dom_insert_L.
  assert (dom h3 = {[e2]} ∪ dom h2) as Hd3 by apply dom_insert_L.
  assert (dom h4 = {[r2]} ∪ dom h3) as Hd4 by apply dom_insert_L.
  assert (dom h5 = {[e2]} ∪ dom h4) as Hd5 by apply dom_insert_L.
  assert (dom h6 = {[w2]} ∪ dom h5) as Hd6 by apply dom_insert_L.
  assert (dom h7 = {[e2]} ∪ dom h6) as Hd7 by apply dom_insert_L.
  assert (∀ x, x ∈ dom h → h3 !! x = h !! x) as Hold3.
  { intros x Hx. unfold h3, h2, h1.
    rewrite !lookup_insert_ne; [done | set_solver ..]. }
  assert (∀ x, x ∈ dom h → h7 !! x = h !! x) as Hold7.
  { intros x Hx. rewrite <- (Hold3 x Hx). unfold h7, h6, h5, h4.
    rewrite !lookup_insert_ne; [done | set_solver ..]. }
  assert (∀ x ob, h !! x = Some ob → x ∈ dom h) as Hin.
  { intros x ob Hx. apply elem_of_dom. by eexists. }
  set (σ3 := Store h3 wd). set (σ4 := Store h4 wd).
  set (σ5 := Store h5 wd). set (σ6 := Store h6 wd).
  set (σ7 := Store h7 wd).
  assert (@new_ExpressionEngine World Owner Change HExn (Store h wd)
          = (Ret e2, σ3, [])) as HA by reflexivity.
  assert (@get_read_handlers World Owner Change HExn E1 σ3
          = (Ret r1, σ3, [])) as HB.
  { apply (run_engine_member σ3 E1 r1 w1). simpl. rewrite Hold3; eauto. }
  assert (@sortedmap_copy World Owner Change HExn r1 σ3
          = (Ret r2, σ4, [])) as HC.
  { unfold sortedmap_copy.
    rewrite run_bind, (run_sortedmap_items σ3 r1 ritems); [done|].
    simpl. rewrite Hold3; eauto. }
  assert (@set_read_handlers World Owner Change HExn e2 r2 σ4
          = (Ret tt, σ5, [])) as HD.
  { apply (run_set_member σ4 e2 r0 w0 r2 ritems); simpl; unfold h4.
    - rewrite lookup_insert_ne by set_solver. apply lookup_insert_eq.
    - apply lookup_insert_eq. }
  assert (@sortedmap_new World Owner Change HExn σ5 = (Ret w2, σ6, []))
    as HF by reflexivity.
  assert (@set_write_handlers World Owner Change HExn e2 w2 σ6
          = (Ret tt, σ7, [])) as HG.
  { apply (run_set_member σ6 e2 r2 w0 w2 []); simpl; unfold h6.
    - rewrite lookup_insert_ne by set_solver. apply lookup_insert_eq.
    - apply lookup_insert_eq. }
  assert (@get_write_handlers World Owner Change HExn E1 σ7
          = (Ret w1, σ7, [])) as HH.
  { apply (run_engine_member σ7 E1 r1 w1). simpl. rewrite Hold7; eauto. }
  assert (@sortedmap_items World Owner Change HExn w1 σ7
          = (Ret witems, σ7, [])) as HI.
  { apply run_sortedmap_items. simpl. rewrite Hold7; eauto. }
  exists e2, r2, w2, σ7. split; [|repeat split].
  - intros res σ' t Hloop. unfold copy.
    rewrite run_bind, HA, run_bind, HB, run_bind, HC, run_bind, HD.
    rewrite run_bind, HF, run_bind, HG, run_bind, HH, run_bind, HI.
    rewrite run_bind. unfold copy_item in Hloop. rewrite Hloop.
    destruct res; simpl; by rewrite ?app_nil_r.
  - apply lookup_insert_eq.
  - simpl. unfold h7, h6, h5.
    rewrite !lookup_insert_ne by set_solver. apply lookup_insert_eq.
  - simpl. unfold h7. rewrite lookup_insert_ne by set_solver.
    apply lookup_insert_eq.
  - simpl. set_solver.
  - set_solver.
  - set_solver.
  - set_solver.
  - exact Hold7.
  - set_solver.
Qed.

(** The lists that the loop of [copy] puts in the new map are different
    from one another. *)
Lemma copy_loop_distinct w items :
  ∀ acc σ σ' acc',
    heap σ !! w = Some (OSortedMap acc) →
    NoDup acc.*2 →
    Forall (λ x, x ∈ dom (heap σ)) acc.*2 →
    for_items items (copy_item w) σ = (Ret tt, σ', []) →
    heap σ' !! w = Some (OSortedMap acc') →
    NoDup acc'.*2.
Proof.
  induction items as [|[key value] items IH];
    intros acc σ σ' acc' Hw Hnd Hdom Hloop Hw'.
  - simpl in Hloop. injection Hloop as <-. rewrite Hw in Hw'.
    by injection Hw' as <-.
  - simpl in Hloop. rewrite run_bind in Hloop.
    destruct (list_at σ value) as [elems|] eqn:Hvalue.
    2:{ unfold copy_item, list_slice_all in Hloop.
        rewrite !run_bind, run_list_elems, Hvalue in Hloop. done. }
    rewrite (run_copy_item σ w acc key value elems Hw Hvalue) in Hloop.
    set (l2 := fresh (dom (heap σ))) in *.
    assert (l2 ∉ dom (heap σ)) as Hl2 by apply is_fresh.
    set (σb := Store (<[w := OSortedMap (SortedMap.setitem acc key l2)]>
                        (<[l2 := OList elems]> (heap σ))) (world σ)) in *.
    destruct (for_items items (copy_item w) σb) as [[res σ2] t2] eqn:Hrest.
    simpl in Hloop. injection Hloop as -> -> ->.
    rewrite Forall_forall in Hdom.
    apply (IH (SortedMap.setitem acc key l2) σb σ' acc'); try done.
    + simpl. apply lookup_insert_eq.
    + apply setitem_NoDup; [done|]. intros Hin. by apply Hl2, Hdom.
    + apply Forall_forall. intros x Hx. simpl. rewrite !dom_insert_L.
      apply setitem_values in Hx as [->|Hx]; [set_solver|].
      specialize (Hdom x Hx). set_solver.
Qed.

(** X7. [copy] keeps the engine in shape: the engine it returns has its
    two maps in the store, a write map in key order and a list at every
    name, as the source has, so that it can be copied and dispatched from
    like the source. *)
Theorem copy_keeps_wellformed σ E1 r1 w1 ritems witems :
  heap σ !! E1 = Some (OEngine r1 w1) →
  heap σ !! r1 = Some (OSortedMap ritems) →
  heap σ !! w1 = Some (OSortedMap witems) →
  SortedMap.sorted witems = true →
  Forall (λ l, is_Some (list_at σ l)) witems.*2 →
  ∃ E2 r2 w2 witems2 σ',
    copy E1 σ = (Ret E2, σ', [])
    ∧ heap σ' !! E2 = Some (OEngine r2 w2)
    ∧ heap σ' !! r2 = Some (OSortedMap ritems)
    ∧ heap σ' !! w2 = Some (OSortedMap witems2)
    ∧ SortedMap.sorted witems2 = true
    ∧ Forall (λ l, is_Some (list_at σ' l)) witems2.*2.
Proof.
  intros HE Hr Hw Hsort Hlists.
  destruct (@copy_spec World Owner Change HExn σ E1 r1 w1 ritems witems
              HE Hr Hw Hlists) as
    (E2 & r2 & w2 & witems2 & σ' & Hcopy & _ & _ & _ & HE2' & Hr2'
     & Hw2' & Hvals & Hsorted).
  specialize (Hsorted Hsort).
  exists E2, r2, w2, witems2, σ'. repeat split; try done.
  - by rewrite (sorted_Forall2 (λ l l', list_at σ' l' = list_at σ l)
                  _ _ Hsorted).
  - eapply Forall_impl; [exact Hvals|]. by intros x [_ Hx].
Qed.

(** X8. Everything [copy] makes is new and its own: the engine returned,
    its two maps and the lists of its write map are objects that were not
    in the store before, all different from one another, also when the
    source had one list at two names. *)
Theorem copy_allocates_distinct_objects σ E1 r1 w1 ritems witems :
  heap σ !! E1 = Some (OEngine r1 w1) →
  heap σ !! r1 = Some (OSortedMap ritems) →
  heap σ !! w1 = Some (OSortedMap witems) →
  Forall (λ l, is_Some (list_at σ l)) witems.*2 →
  ∃ E2 r2 w2 witems2 σ',
    copy E1 σ = (Ret E2, σ', [])
    ∧ heap σ' !! E2 = Some (OEngine r2 w2)
    ∧ heap σ' !! w2 = Some (OSortedMap witems2)
    ∧ NoDup (E2 :: r2 :: w2 :: witems2.*2)
    ∧ Forall (λ x, x ∉ dom (heap σ)) (E2 :: r2 :: w2 :: witems2.*2).
Proof.
  intros HE Hr Hw Hlists.
  destruct (copy_prefix σ E1 r1 w1 ritems witems HE Hr Hw) as
    (E2 & r2 & w2 & σ7 & Hcopy & HE7 & Hr7 & Hw7 & Hsub & HE2 & Hr2 & Hw2
     & Hold & Hrw).
  destruct (@copy_loop_spec World Owner Change HExn w2 witems [] σ7 Hw7)
    as (σ' & witems2 & Hloop & Hw2' & Hvals & _).
  { eapply Forall_impl; [exact Hlists|]. intros x Hx.
    rewrite (list_at_heap σ σ7 x); [done|].
    by apply Hold, list_at_dom. }
  pose proof (copy_loop_distinct w2 witems [] σ7 σ' witems2 Hw7
                (NoDup_nil_2) (Forall_nil_2 _) Hloop Hw2') as Hnd.
  destruct (@keeps_for_items World Owner Change HExn
              (dom (heap σ7) ∖ {[w2]}) (copy_item w2) witems)
    with (σ := σ7) as (_ & _ & _ & Hkeep & _).
  { intros k v. apply keeps_copy_item. set_solver. }
  { set_solver. }
  rewrite Hloop in Hkeep. simpl in Hkeep.
  assert (∀ x ob, heap σ7 !! x = Some ob → x ∈ dom (heap σ7)) as Hin.
  { intros x ob Hx. apply elem_of_dom. by eexists. }
  assert (∀ x, x ∈ witems2.*2 → x ∉ dom (heap σ7)) as Hnew.
  { intros x Hx. rewrite Forall_forall in Hvals.
    destruct (Hvals x Hx) as [Hnil|[Hx7 _]]; [|done].
    by apply elem_of_nil in Hnil. }
  assert (E2 ≠ r2) as HEr by (intros Heq; rewrite Heq, Hr7 in HE7; done).
  assert (E2 ≠ w2) as HEw by (intros Heq; rewrite Heq, Hw7 in HE7; done).
  exists E2, r2, w2, witems2, σ'. repeat split.
  - by apply Hcopy in Hloop.
  - rewrite Hkeep; [done|]. apply elem_of_difference. split; [eauto|].
    set_solver.
  - done.
  - repeat (apply NoDup_cons; split); try done.
    + rewrite !not_elem_of_cons. repeat split; try done.
      intros Hx. apply (Hnew _ Hx). eauto.
    + rewrite !not_elem_of_cons. repeat split; try done.
      intros Hx. apply (Hnew _ Hx). eauto.
    + intros Hx. apply (Hnew _ Hx). eauto.
  - repeat (apply Forall_cons; split); try done.
    apply Forall_forall. intros x Hx Hdom. apply (Hnew x Hx). set_solver.
Qed.

End MoreStoreFacts.

Section MoreProperties.
Context {World Owner Change Value HExn : Type}.
Variable call_read :
  ref → Owner → string → @store World → @outcome HExn Value * @store World.
Variable call_write :
  ref → Owner → string → Change → @store World
  → @outcome HExn unit * @store World.

Abbreviation store := (@store World).
Abbreviation call := (@call Owner Change).
Abbreviation M := (@M World Owner Change HExn).
Abbreviation read := (@read World Owner Change Value HExn call_read).
Abbreviation write := (@write World Owner Change HExn call_write).
Abbreviation copy := (@copy World Owner Change HExn).
Abbreviation for_in := (@for_in World Owner Change HExn).
Abbreviation invoke_write :=
  (@invoke_write World Owner Change HExn call_write).
Abbreviation run_quietly :=
  (@run_quietly World Owner Change HExn call_write).
Abbreviation new_ExpressionEngine :=
  (@new_ExpressionEngine World Owner Change HExn).

Implicit Types (σ : store) (E l h : ref) (o : Owner) (n : string)
  (c : Change) (items : list (string * ref)) (hs : list ref).

(** *** Chains of any length, and chains that change under the loop *)

(** The loop ends when the index reaches the end of the list. *)
Lemma for_in_end fuel l i (body : ref → M unit) σ hs :
  list_at σ l = Some hs → length hs ≤ i →
  for_in fuel l i body σ = (Ret tt, σ, []).
Proof.
  intros Hl Hi. rewrite for_in_unfold, Hl.
  by rewrite (proj2 (lookup_ge_None hs i) Hi).
Qed.

(** X1. When the handlers of the chain at [n], whatever its length, each
    return and leave the list as it is, [write(owner, n, c)] calls every
    one of them once, in list order, with [(owner, n, c)], and returns in
    the store the last one left. *)
Theorem write_invokes_whole_chain σ E r w items fuel o n c l hs σ' :
  heap σ !! E = Some (OEngine r w) →
  heap σ !! w = Some (OSortedMap items) →
  SortedMap.getitem items n = Some l →
  list_at σ l = Some hs →
  run_quietly l hs o n c hs σ = Some σ' →
  length hs ≤ fuel →
  write fuel E o n c σ = (Ret tt, σ', (λ h, CallWrite h o n c) <$> hs).
Proof.
  intros HE Hw Hn Hl Hrun Hfuel.
  rewrite (write_unfold call_write σ E r w items fuel o n c HE Hw), Hn.
  destruct (for_in_quiet call_write l o n c hs [] [] σ σ' (fuel - length hs))
    as [Hl' Hfor].
  { by rewrite app_nil_r. }
  { by rewrite app_nil_r. }
  simpl in Hl', Hfor. rewrite app_nil_r in Hl'.
  replace (length hs + (fuel - length hs)) with fuel in Hfor by lia.
  rewrite Hfor, (for_in_end _ l _ _ σ' hs Hl') by done.
  by rewrite app_nil_r.
Qed.

(** X2. The loop of [write] follows the list as it is at each step: when
    the last handler [h] of the chain appends the handlers [new] to the
    list it is called from, [write] goes on and calls them too, in the
    same [write] and with the same arguments. *)
Theorem write_visits_appended_handlers σ E r w items fuel o n c l
    pre h new σa σb σc :
  heap σ !! E = Some (OEngine r w) →
  heap σ !! w = Some (OSortedMap items) →
  SortedMap.getitem items n = Some l →
  list_at σ l = Some (pre ++ [h]) →
  run_quietly l (pre ++ [h]) o n c pre σ = Some σa →
  call_write h o n c σa = (Ret tt, σb) →
  list_at σb l = Some (pre ++ [h] ++ new) →
  run_quietly l (pre ++ [h] ++ new) o n c new σb = Some σc →
  length pre + 1 + length new ≤ fuel →
  write fuel E o n c σ =
  (Ret tt, σc, (λ x, CallWrite x o n c) <$> (pre ++ [h] ++ new)).
Proof.
  intros HE Hw Hn Hl Hpre Hh Hlb Hnew Hfuel.
  rewrite (write_unfold call_write σ E r w items fuel o n c HE Hw), Hn.
  destruct (for_in_quiet call_write l o n c pre [] [h] σ σa
              (fuel - length pre) Hl Hpre) as [Hla Hfor].
  replace (length pre + (fuel - length pre)) with fuel in Hfor by lia.
  simpl in Hla, Hfor. rewrite Hfor, for_in_unfold, Hla.
  rewrite list_lookup_middle by done.
  destruct (fuel - length pre) as [|k] eqn:Hk; [lia|].
  rewrite run_bind, (run_invoke_write call_write _ _ _ _ _ _ _ Hh).
  assert (pre ++ [h] ++ new = (pre ++ [h]) ++ new ++ []) as Heq
    by by rewrite app_nil_r, <- app_assoc.
  rewrite Heq in Hlb, Hnew.
  destruct (for_in_quiet call_write l o n c new (pre ++ [h]) [] σb σc
              (k - length new) Hlb Hnew) as [Hlc Hfor'].
  replace (length new + (k - length new)) with k in Hfor' by lia.
  replace (length (pre ++ [h])) with (S (length pre)) in Hfor'
    by (rewrite length_app; simpl; lia).
  rewrite Hfor', (for_in_end _ l _ _ σc _ Hlc).
  2:{ rewrite !length_app. simpl. lia. }
  rewrite Heq, !fmap_app. simpl. by rewrite !app_nil_r, <- app_assoc.
Qed.

(** X3. Nor does the loop go by the list as it was at the start: when a
    handler [h] returns having cut the list down to no more than the
    handlers called so far, [write] returns after [h] without error, and
    the handlers that stood behind [h] in the chain are not called. *)
Theorem write_stops_when_chain_shrinks σ E r w items fuel o n c l
    pre h post hs' σa σb :
  heap σ !! E = Some (OEngine r w) →
  heap σ !! w = Some (OSortedMap items) →
  SortedMap.getitem items n = Some l →
  list_at σ l = Some (pre ++ h :: post) →
  run_quietly l (pre ++ h :: post) o n c pre σ = Some σa →
  call_write h o n c σa = (Ret tt, σb) →
  list_at σb l = Some hs' →
  length hs' ≤ S (length pre) →
  length pre < fuel →
  write fuel E o n c σ =
  (Ret tt, σb, (λ x, CallWrite x o n c) <$> (pre ++ [h])).
Proof.
  intros HE Hw Hn Hl Hpre Hh Hlb Hshort Hfuel.
  rewrite (write_unfold call_write σ E r w items fuel o n c HE Hw), Hn.
  destruct (for_in_quiet call_write l o n c pre [] (h :: post) σ σa
              (fuel - length pre) Hl Hpre) as [Hla Hfor].
  replace (length pre + (fuel - length pre)) with fuel in Hfor by lia.
  simpl in Hla, Hfor. rewrite Hfor, for_in_unfold, Hla.
  rewrite list_lookup_middle by done.
  destruct (fuel - length pre) as [|k] eqn:Hk; [lia|].
  rewrite run_bind, (run_invoke_write call_write _ _ _ _ _ _ _ Hh).
  rewrite (for_in_end _ l _ _ σb hs' Hlb Hshort).
  by rewrite fmap_app.
Qed.

(** *** A new engine *)

(** X4. [ExpressionEngine()] is a new object with no handler at any name:
    on it, [read] and [write] of every name raise the KeyError of the
    name, call nothing and change nothing. *)
Theorem new_engine_has_no_handlers σ :
  ∃ E σ',
    new_ExpressionEngine σ = (Ret E, σ', [])
    ∧ (E ∉ dom (heap σ))
    ∧ world σ' = world σ
    ∧ ∀ o n,
        read E o n σ' = (Raise (KeyError n), σ', [])
        ∧ ∀ fuel c, write fuel E o n c σ' = (Raise (KeyError n), σ', []).
Proof.
  destruct σ as [hp wd].
  pose (r0 := fresh (dom hp)). pose (h1 := <[r0 := OSortedMap []]> hp).
  pose (w0 := fresh (dom h1)). pose (h2 := <[w0 := OSortedMap []]> h1).
  pose (e := fresh (dom h2)). pose (h3 := <[e := OEngine r0 w0]> h2).
  pose proof (is_fresh (dom hp)) as Hr0. fold r0 in Hr0.
  pose proof (is_fresh (dom h1)) as Hw0. fold w0 in Hw0.
  pose proof (is_fresh (dom h2)) as He. fold e in He.
  assert (dom h1 = {[r0]} ∪ dom hp) as Hd1 by apply dom_insert_L.
  assert (dom h2 = {[w0]} ∪ dom h1) as Hd2 by apply dom_insert_L.
  assert (h3 !! e = Some (OEngine r0 w0)) as HE by apply lookup_insert_eq.
  assert (h3 !! w0 = Some (OSortedMap [])) as Hw.
  { unfold h3. rewrite lookup_insert_ne by set_solver.
    apply lookup_insert_eq. }
  assert (h3 !! r0 = Some (OSortedMap [])) as Hr.
  { unfold h3, h2. rewrite !lookup_insert_ne by set_solver.
    apply lookup_insert_eq. }
  exists e, (Store h3 wd). split; [reflexivity|].
  split; [simpl; set_solver|]. split; [done|]. intros o n. split.
  - by rewrite (read_unfold call_read (Store h3 wd) e r0 w0 [] o n HE Hr).
  - intros fuel c.
    by rewrite (write_unfold call_write (Store h3 wd) e r0 w0 [] fuel o n c
                  HE Hw).
Qed.

(** *** The base classes as handlers *)

(** X5. A read handler that does not override [__call__] is no handler:
    [read] of a name bound to an instance of the base class [ReadHandler]
    raises NotImplementedError and leaves the store as it is. *)
Theorem read_base_handler_raises (ni : HExn) σ E r w items o n h :
  heap σ !! E = Some (OEngine r w) →
  heap σ !! r = Some (OSortedMap items) →
  SortedMap.getitem items n = Some h →
  call_read h o n σ = ReadHandler_call ni h o n σ →
  read E o n σ = (Raise (HandlerError ni), σ, [CallRead h o n]).
Proof.
  intros HE Hr Hh Hbase.
  rewrite (read_unfold call_read σ E r w items o n HE Hr), Hh.
  unfold invoke_read. by rewrite Hbase.
Qed.

(** X6. An instance of the base class [WriteHandler] in a chain ends the
    [write] at its place with NotImplementedError: the handlers before
    it have run and their effects stay, the handlers behind it are not
    called. *)
Theorem write_base_handler_aborts (ni : HExn) σ E r w items fuel o n c l
    pre h post σi :
  heap σ !! E = Some (OEngine r w) →
  heap σ !! w = Some (OSortedMap items) →
  SortedMap.getitem items n = Some l →
  list_at σ l = Some (pre ++ h :: post) →
  run_quietly l (pre ++ h :: post) o n c pre σ = Some σi →
  call_write h o n c σi = WriteHandler_call ni h o n c σi →
  length pre < fuel →
  write fuel E o n c σ =
  (Raise (HandlerError ni), σi, (λ x, CallWrite x o n c) <$> (pre ++ [h])).
Proof.
  intros HE Hw Hn Hl Hpre Hbase Hfuel.
  rewrite (write_unfold call_write σ E r w items fuel o n c HE Hw), Hn.
  destruct (for_in_quiet call_write l o n c pre [] (h :: post) σ σi
              (fuel - length pre) Hl Hpre) as [Hli Hfor].
  replace (length pre + (fuel - length pre)) with fuel in Hfor by lia.
  simpl in Hli, Hfor. rewrite Hfor, for_in_unfold, Hli.
  rewrite list_lookup_middle by done.
  destruct (fuel - length pre) as [|k] eqn:Hk; [lia|].
  rewrite run_bind, (run_invoke_write call_write _ _ _ _ _ _ _ Hbase).
  by rewrite fmap_app.
Qed.

(** *** Copies and their source *)

(** Two engines whose read maps hold the same items, and whose write maps
    hold, at the same keys, lists with the same elements, dispatch
    alike. *)
Lemma dispatch_same_tables σ Ea ra wa Eb rb wb ritems aitems bitems :
  heap σ !! Ea = Some (OEngine ra wa) →
  heap σ !! Eb = Some (OEngine rb wb) →
  heap σ !! ra = Some (OSortedMap ritems) →
  heap σ !! rb = Some (OSortedMap ritems) →
  heap σ !! wa = Some (OSortedMap aitems) →
  heap σ !! wb = Some (OSortedMap bitems) →
  Forall2 (λ kv kv', kv'.1 = kv.1
                     ∧ (is_Some (list_at σ kv.2)
                        ∧ list_at σ kv'.2 = list_at σ kv.2))
    aitems bitems →
  (∀ o n, read Eb o n σ = read Ea o n σ)
  ∧ (keeps_lists call_write →
     ∀ fuel o n c, write fuel Eb o n c σ = write fuel Ea o n c σ).
Proof.
  intros HEa HEb Hra Hrb Hwa Hwb Htab. split.
  - intros o n.
    rewrite (read_unfold call_read σ Eb rb wb ritems o n HEb Hrb).
    by rewrite (read_unfold call_read σ Ea ra wa ritems o n HEa Hra).
  - intros Hkl fuel o n c.
    rewrite (write_unfold call_write σ Eb rb wb bitems fuel o n c HEb Hwb).
    rewrite (write_unfold call_write σ Ea ra wa aitems fuel o n c HEa Hwa).
    pose proof (getitem_Forall2
                  (λ l l', is_Some (list_at σ l)
                           ∧ list_at σ l' = list_at σ l)
                  aitems bitems n Htab) as Hget.
    destruct (SortedMap.getitem aitems n) as [la|];
      inversion Hget as [? lb [[hs Hla] Hlb]|]; subst; [|done].
    rewrite Hla in Hlb.
    destruct (for_in_sim call_write
                (λ σa σb, σa = σb ∧ list_at σa lb = Some hs
                          ∧ list_at σa la = Some hs) lb la o n c)
      with (fuel := fuel) (i := 0) (σa := σ) (σb := σ)
      as (Ho & Ht & HR & _).
    + intros σa σb (<- & H2 & H1). by rewrite H1, H2.
    + intros h σa σb (<- & H2 & H1). repeat split; try done; by apply Hkl.
    + done.
    + destruct (for_in fuel lb 0 _ σ) as [[? ?] ?].
      destruct (for_in fuel la 0 _ σ) as [[? ?] ?].
      simpl in *. by subst.
Qed.

(** X9. A copy of a copy is as good as a copy: after
    [E2 = E1.copy()] and [E3 = E2.copy()], for every name and owner,
    [E3.read] is [E1.read] and, with handlers that leave the lists alone,
    [E3.write] is [E1.write]: same calls, same result. *)
Theorem copy_of_copy_dispatches_alike σ E1 r1 w1 ritems witems :
  heap σ !! E1 = Some (OEngine r1 w1) →
  heap σ !! r1 = Some (OSortedMap ritems) →
  heap σ !! w1 = Some (OSortedMap witems) →
  SortedMap.sorted witems = true →
  Forall (λ l, is_Some (list_at σ l)) witems.*2 →
  ∃ E2 σ1 E3 σ2,
    copy E1 σ = (Ret E2, σ1, [])
    ∧ copy E2 σ1 = (Ret E3, σ2, [])
    ∧ (∀ o n, read E3 o n σ2 = read E1 o n σ2)
    ∧ (keeps_lists call_write →
       ∀ fuel o n c, write fuel E3 o n c σ2 = write fuel E1 o n c σ2).
Proof.
  intros HE Hr Hw Hsort Hlists.
  destruct (@copy_spec World Owner Change HExn σ E1 r1 w1 ritems witems
              HE Hr Hw Hlists) as
    (E2 & r2 & w2 & witems2 & σ1 & Hcopy1 & _ & _ & _ & HE2 & Hr2 & Hw2
     & Hvals2 & Hsorted1).
  specialize (Hsorted1 Hsort).
  assert (SortedMap.sorted witems2 = true) as Hsort2.
  { by rewrite (sorted_Forall2 (λ l l', list_at σ1 l' = list_at σ l)
                  _ _ Hsorted1). }
  assert (Forall (λ l, is_Some (list_at σ1 l)) witems2.*2) as Hlists2.
  { eapply Forall_impl; [exact Hvals2|]. by intros x [_ Hx]. }
  destruct (@copy_spec World Owner Change HExn σ1 E2 r2 w2 ritems witems2
              HE2 Hr2 Hw2 Hlists2) as
    (E3 & r3 & w3 & witems3 & σ2 & Hcopy2 & _ & _ & _ & HE3 & Hr3 & Hw3
     & _ & Hsorted2).
  specialize (Hsorted2 Hsort2).
  destruct (@keeps_copy World Owner Change HExn (dom (heap σ)) E1 σ)
    as (_ & _ & Hsub1 & Hobj1 & _); [done|].
  rewrite Hcopy1 in Hsub1, Hobj1. simpl in Hsub1, Hobj1.
  destruct (@keeps_copy World Owner Change HExn (dom (heap σ1)) E2 σ1)
    as (_ & _ & _ & Hobj2 & _); [done|].
  rewrite Hcopy2 in Hobj2. simpl in Hobj2.
  assert (∀ x, x ∈ dom (heap σ) → heap σ2 !! x = heap σ !! x) as Hold.
  { intros x Hx. rewrite Hobj2 by set_solver. by apply Hobj1. }
  assert (∀ x ob, heap σ !! x = Some ob → heap σ2 !! x = Some ob) as Hold'.
  { intros x ob Hx. rewrite Hold; [done|]. apply elem_of_dom. by eexists. }
  exists E2, σ1, E3, σ2. split; [done|]. split; [done|].
  apply (dispatch_same_tables σ2 E1 r1 w1 E3 r3 w3 ritems witems witems3);
    eauto.
  assert (Forall (λ _ : ref, True) witems2.*2) as Htrue
    by by apply Forall_forall.
  pose proof (Forall2_values (λ l l', list_at σ1 l' = list_at σ l)
                (λ l, is_Some (list_at σ l)) (λ _, True)
                _ _ Hsorted1 Hlists Htrue) as H1.
  eapply Forall2_trans; [|exact H1|exact Hsorted2].
  intros x y z (Hk1 & HR1 & Hx & _) (Hk2 & HR2). simpl in *.
  assert (list_at σ2 x.2 = list_at σ x.2) as Hx2
    by by apply list_at_heap, Hold, list_at_dom.
  split; [congruence|]. split; [by rewrite Hx2|]. congruence.
Qed.

(** X10. Making a copy does not change how the source dispatches: with
    handlers that look at the world only and leave the lists alone,
    [read] and [write] of the source after [copy] make the same calls
    with the same result as before it. *)
Theorem copy_keeps_source_dispatch σ E1 r1 w1 ritems witems :
  world_driven_read call_read →
  world_driven_write call_write →
  keeps_lists call_write →
  heap σ !! E1 = Some (OEngine r1 w1) →
  heap σ !! r1 = Some (OSortedMap ritems) →
  heap σ !! w1 = Some (OSortedMap witems) →
  Forall (λ l, is_Some (list_at σ l)) witems.*2 →
  ∀ o n,
    observe (read E1 o n (copy E1 σ).1.2) = observe (read E1 o n σ)
    ∧ ∀ fuel c,
        observe (write fuel E1 o n c (copy E1 σ).1.2)
        = observe (write fuel E1 o n c σ).
Proof.
  intros Hwr Hww Hkl HE Hr Hw Hlists.
  destruct (@keeps_copy World Owner Change HExn (dom (heap σ)) E1 σ)
    as (_ & Hworld & _ & Hobj & _); [done|].
  assert (∀ x ob, heap σ !! x = Some ob →
                  heap (copy E1 σ).1.2 !! x = Some ob) as Hold.
  { intros x ob Hx. rewrite Hobj; [done|]. apply elem_of_dom. by eexists. }
  apply (dispatch_agree call_read call_write _ _ E1 r1 w1 ritems witems);
    eauto.
  eapply Forall_impl; [exact Hlists|]. intros l Hl. simpl.
  assert (list_at (copy E1 σ).1.2 l = list_at σ l) as Heq
    by by apply list_at_heap, Hobj, list_at_dom.
  by rewrite Heq.
Qed.

End MoreProperties.

(** ** The scenario, run *)

Section ScenarioRuns.
Import Scenario.
Local Open Scope positive_scope.

Abbreviation read := (@read env ref (nat * nat) nat string call_read).
Abbreviation write := (@write env ref (nat * nat) string call_write).
Abbreviation copy := (@copy env ref (nat * nat) string).
Abbreviation mutate := (@mutate env ref (nat * nat) string).
Abbreviation observe := (@observe env ref (nat * nat) string).

Lemma scenario_keeps_lists : keeps_lists call_write.
Proof.
  intros h o n c σ l elems Hl. unfold call_write.
  repeat case_decide; exact Hl.
Qed.

Lemma scenario_world_driven_write : world_driven_write call_write.
Proof.
  intros h o n c σa σb Hw. unfold call_write. rewrite Hw.
  repeat case_decide; done.
Qed.

Lemma scenario_world_driven_read : world_driven_read call_read.
Proof.
  intros h o n σa σb Hw. unfold call_read. rewrite Hw.
  repeat case_decide; done.
Qed.

Lemma scenario_lists :
  Forall (λ l, is_Some (list_at σ0 l)) write_items.*2.
Proof. repeat constructor; by eexists. Qed.

Lemma read_invokes_bound_handler_witness :
  read engine owner "y" σ0 = (Ret 16%nat, σ0, [CallRead square owner "y"]).
Proof.
  apply (read_invokes_bound_handler call_read σ0 engine 2 3 read_items
           owner "y" square); reflexivity.
Defined.

Lemma read_unbound_raises_witness :
  read engine owner "q" σ0 = (Raise (KeyError "q"), σ0, []).
Proof.
  apply (read_unbound_raises call_read σ0 engine 2 3 read_items owner "q");
    reflexivity.
Defined.

Lemma write_unbound_raises_witness :
  write 5 engine owner "q" change σ0 = (Raise (KeyError "q"), σ0, [])
  ∧ write 5 engine owner "e" change σ0 = (Ret tt, σ0, []).
Proof.
  split.
  - apply (write_unbound_raises call_write σ0 engine 2 3 write_items 5
             owner "q" change); reflexivity.
  - apply (proj2 (write_unbound_raises call_write σ0 engine 2 3 write_items
                    5 owner "e" change eq_refl eq_refl) 5); reflexivity.
Defined.

(** C3 as stated fails: "q" has no write handlers in the engine of the
    scenario, and [write] on it raises instead of doing nothing. *)
Lemma write_unbound_is_not_noop :
  SortedMap.getitem write_items "q" = None
  ∧ (write 5 engine owner "q" change σ0).1.1 = Raise (KeyError "q")
  ∧ write 5 engine owner "q" change σ0 ≠ (Ret tt, σ0, []).
Proof. split; [reflexivity|]. split; [reflexivity|]. discriminate. Qed.

Lemma write_invokes_chain_in_order_witness :
  write 3 engine owner "t" change σ0 =
  (Ret tt, Store heap0 (Env 4 100 [change; change]),
   [CallWrite log_change owner "t" change;
    CallWrite clamp_change owner "t" change;
    CallWrite log_change owner "t" change]).
Proof.
  apply (proj1 (write_invokes_chain_in_order call_write σ0 engine 2 3
                  write_items owner "t" change 6
                  log_change clamp_change log_change
                  eq_refl eq_refl eq_refl eq_refl)
           3%nat
           (Store heap0 (Env 4 0 [change]))
           (Store heap0 (Env 4 100 [change]))
           (Store heap0 (Env 4 100 [change; change])));
    first [reflexivity | lia].
Defined.

Lemma write_failure_aborts_chain_witness :
  write 3 engine owner "u" change σ0 =
  (Raise (HandlerError "broken"%string), Store heap0 (Env 4 0 [change]),
   [CallWrite log_change owner "u" change;
    CallWrite broken owner "u" change]).
Proof.
  apply (write_failure_aborts_chain call_write σ0 engine 2 3 write_items
           3%nat owner "u" change 7 [log_change] broken [clamp_change]
           (Store heap0 (Env 4 0 [change]))
           (Store heap0 (Env 4 0 [change]))
           (HandlerError "broken"%string));
    first [reflexivity | simpl; lia].
Defined.

Lemma dispatch_leaves_engine_unchanged_witness :
  heap (read engine owner "y" σ0).1.2 !! 4 = heap σ0 !! 4
  ∧ heap (write 5 engine owner "z" change σ0).1.2 !! 4 = heap σ0 !! 4.
Proof.
  assert (4 ∈ engine :: parts σ0 engine) as Hin.
  { apply list_elem_of_In. vm_compute. tauto. }
  destruct (dispatch_leaves_engine_unchanged call_read call_write σ0 engine)
    with (x := 4) as [Hread Hwrite].
  - intros x h o n σ' _. unfold call_read. by case_decide.
  - intros x h o n c σ' _. unfold call_write. by repeat case_decide.
  - exact Hin.
  - split; [apply Hread | apply Hwrite].
Defined.

Lemma copy_leaves_source_unchanged_witness :
  heap (copy engine σ0).1.2 !! 4 = Some (OList [log_change; clamp_change])
  ∧ heap (copy engine σ0).1.2 !! engine = Some (OEngine 2 3).
Proof.
  split.
  - apply (copy_leaves_source_unchanged (Owner := ref)
             (Change := nat * nat) (HExn := string) σ0 engine 4).
    by eexists.
  - apply (copy_leaves_source_unchanged (Owner := ref)
             (Change := nat * nat) (HExn := string) σ0 engine engine).
    by eexists.
Defined.

Lemma copy_shares_handlers_and_duplicates_lists_witness :
  ∃ E2 r2 w2 witems2 σ',
    copy engine σ0 = (Ret E2, σ', [])
    ∧ heap σ' !! E2 = Some (OEngine r2 w2)
    ∧ r2 ≠ 2
    ∧ heap σ' !! r2 = Some (OSortedMap read_items)
    ∧ w2 ≠ 3
    ∧ heap σ' !! w2 = Some (OSortedMap witems2)
    ∧ witems2.*1 = ["e"; "t"; "u"; "z"]%string.
Proof.
  destruct (copy_shares_handlers_and_duplicates_lists (Owner := ref)
              (Change := nat * nat) (HExn := string)
              σ0 engine 2 3 read_items write_items
              eq_refl eq_refl eq_refl eq_refl scenario_lists)
    as (E2 & r2 & w2 & witems2 & σ' & Hcopy & HE2 & _ & Hr2 & Hr2' & _
        & Hw2 & Hw2' & Hkeys & _).
  exists E2, r2, w2, witems2, σ'. repeat split; assumption.
Defined.

Lemma copy_preserves_dispatch_witness :
  ∃ E2 σ',
    copy engine σ0 = (Ret E2, σ', [])
    ∧ read E2 owner "y" σ' = read engine owner "y" σ'
    ∧ write 5 E2 owner "z" change σ' = write 5 engine owner "z" change σ'.
Proof.
  destruct (copy_preserves_dispatch call_read call_write
              σ0 engine 2 3 read_items write_items
              eq_refl eq_refl eq_refl eq_refl scenario_lists)
    as (E2 & σ' & Hcopy & Hread & Hwrite).
  exists E2, σ'. split; [exact Hcopy|]. split; [apply Hread|].
  apply Hwrite. exact scenario_keeps_lists.
Defined.

Lemma copy_engines_independent_witness :
  ∃ E2 σ1,
    copy engine σ0 = (Ret E2, σ1, [])
    ∧ observe (write 5 engine owner "z" change
                 (mutate E2 (AddWrite "z" broken) σ1).1.2)
      = observe (write 5 engine owner "z" change σ1)
    ∧ observe (write 5 E2 owner "z" change
                 (mutate engine (AddWrite "z" broken) σ1).1.2)
      = observe (write 5 E2 owner "z" change σ1).
Proof.
  destruct (copy_engines_independent call_read call_write
              σ0 engine 2 3 read_items write_items
              scenario_world_driven_read scenario_world_driven_write
              scenario_keeps_lists eq_refl eq_refl eq_refl scenario_lists)
    as (E2 & σ1 & Hcopy & Hind).
  exists E2, σ1. split; [exact Hcopy|].
  destruct (Hind (AddWrite "z" broken) owner "z"%string)
    as [[_ H1] [_ H2]].
  split; [apply H1 | apply H2].
Defined.

End ScenarioRuns.

(** ** The scenarios, run further *)

Section MoreScenarioRuns.
Import Scenario.
Local Open Scope positive_scope.

Abbreviation rebinding_read :=
  (@read env ref (nat * nat) nat string Rebinding.call_read).
Abbreviation rebinding_write :=
  (@write env ref (nat * nat) string Rebinding.call_write).
Abbreviation read := (@read env ref (nat * nat) nat string call_read).
Abbreviation write := (@write env ref (nat * nat) string call_write).
Abbreviation copy := (@copy env ref (nat * nat) string).
Abbreviation observe := (@observe env ref (nat * nat) string).

Lemma write_invokes_whole_chain_witness :
  write 2 engine owner "z" change σ0 =
  (Ret tt, Store heap0 (Env 4 100 [change]),
   [CallWrite log_change owner "z" change;
    CallWrite clamp_change owner "z" change]).
Proof.
  apply (write_invokes_whole_chain call_write σ0 engine 2 3 write_items
           2%nat owner "z" change 4 [log_change; clamp_change]
           (Store heap0 (Env 4 100 [change])));
    first [reflexivity | simpl; lia].
Defined.

Lemma write_visits_appended_handlers_witness :
  rebinding_write 2 engine owner "g" change Rebinding.σ0 =
  (Ret tt,
   Store (<[8 := OList [Rebinding.grow; clamp_change]]> Rebinding.heap0)
     (Env 4 100 []),
   [CallWrite Rebinding.grow owner "g" change;
    CallWrite clamp_change owner "g" change]).
Proof.
  apply (write_visits_appended_handlers Rebinding.call_write Rebinding.σ0
           engine 2 3 Rebinding.write_items 2%nat owner "g" change 8
           [] Rebinding.grow [clamp_change]
           Rebinding.σ0
           (Store (<[8 := OList [Rebinding.grow; clamp_change]]>
                     Rebinding.heap0) (Env 4 0 []))
           (Store (<[8 := OList [Rebinding.grow; clamp_change]]>
                     Rebinding.heap0) (Env 4 100 [])));
    first [reflexivity | simpl; lia].
Defined.

Lemma write_stops_when_chain_shrinks_witness :
  rebinding_write 2 engine owner "s" change Rebinding.σ0 =
  (Ret tt, Store (<[9 := OList []]> Rebinding.heap0) (Env 4 0 []),
   [CallWrite Rebinding.shrink owner "s" change]).
Proof.
  apply (write_stops_when_chain_shrinks Rebinding.call_write Rebinding.σ0
           engine 2 3 Rebinding.write_items 2%nat owner "s" change 9
           [] Rebinding.shrink [log_change] []
           Rebinding.σ0
           (Store (<[9 := OList []]> Rebinding.heap0) (Env 4 0 [])));
    first [reflexivity | simpl; lia].
Defined.

Lemma read_base_handler_raises_witness :
  rebinding_read engine owner "p" Rebinding.σ0 =
  (Raise (HandlerError "NotImplementedError"%string), Rebinding.σ0,
   [CallRead Rebinding.plain_reader owner "p"]).
Proof.
  apply (read_base_handler_raises Rebinding.call_read
           "NotImplementedError"%string Rebinding.σ0 engine 2 3
           Rebinding.read_items owner "p" Rebinding.plain_reader);
    reflexivity.
Defined.

Lemma write_base_handler_aborts_witness :
  rebinding_write 3 engine owner "w" change Rebinding.σ0 =
  (Raise (HandlerError "NotImplementedError"%string),
   Store Rebinding.heap0 (Env 4 0 [change]),
   [CallWrite log_change owner "w" change;
    CallWrite Rebinding.plain_writer owner "w" change]).
Proof.
  apply (write_base_handler_aborts Rebinding.call_write
           "NotImplementedError"%string Rebinding.σ0 engine 2 3
           Rebinding.write_items 3%nat owner "w" change 6
           [log_change] Rebinding.plain_writer [clamp_change]
           (Store Rebinding.heap0 (Env 4 0 [change])));
    first [reflexivity | simpl; lia].
Defined.

Lemma copy_keeps_wellformed_witness :
  ∃ E2 r2 w2 witems2 σ',
    copy engine σ0 = (Ret E2, σ', [])
    ∧ heap σ' !! E2 = Some (OEngine r2 w2)
    ∧ heap σ' !! w2 = Some (OSortedMap witems2)
    ∧ SortedMap.sorted witems2 = true
    ∧ Forall (λ l, is_Some (list_at σ' l)) witems2.*2.
Proof.
  destruct (copy_keeps_wellformed (Owner := ref) (Change := nat * nat)
              (HExn := string) σ0 engine 2 3 read_items write_items
              eq_refl eq_refl eq_refl eq_refl scenario_lists)
    as (E2 & r2 & w2 & witems2 & σ' & Hcopy & HE2 & _ & Hw2 & Hsort
        & Hlists).
  exists E2, r2, w2, witems2, σ'. repeat split; assumption.
Defined.

Lemma copy_allocates_distinct_objects_witness :
  ∃ E2 r2 w2 witems2 σ',
    copy engine σ0 = (Ret E2, σ', [])
    ∧ heap σ' !! E2 = Some (OEngine r2 w2)
    ∧ heap σ' !! w2 = Some (OSortedMap witems2)
    ∧ NoDup (E2 :: r2 :: w2 :: witems2.*2).
Proof.
  destruct (copy_allocates_distinct_objects (Owner := ref)
              (Change := nat * nat) (HExn := string)
              σ0 engine 2 3 read_items write_items
              eq_refl eq_refl eq_refl scenario_lists)
    as (E2 & r2 & w2 & witems2 & σ' & Hcopy & HE2 & Hw2 & Hnd & _).
  exists E2, r2, w2, witems2, σ'. repeat split; assumption.
Defined.

Lemma copy_of_copy_dispatches_alike_witness :
  ∃ E2 σ1 E3 σ2,
    copy engine σ0 = (Ret E2, σ1, [])
    ∧ copy E2 σ1 = (Ret E3, σ2, [])
    ∧ read E3 owner "y" σ2 = read engine owner "y" σ2
    ∧ write 5 E3 owner "z" change σ2 = write 5 engine owner "z" change σ2.
Proof.
  destruct (copy_of_copy_dispatches_alike call_read call_write
              σ0 engine 2 3 read_items write_items
              eq_refl eq_refl eq_refl eq_refl scenario_lists)
    as (E2 & σ1 & E3 & σ2 & Hcopy1 & Hcopy2 & Hread & Hwrite).
  exists E2, σ1, E3, σ2. split; [exact Hcopy1|]. split; [exact Hcopy2|].
  split; [apply Hread|]. apply Hwrite. exact scenario_keeps_lists.
Defined.

Lemma copy_keeps_source_dispatch_witness :
  observe (read engine owner "y" (copy engine σ0).1.2)
  = observe (read engine owner "y" σ0)
  ∧ observe (write 5 engine owner "z" change (copy engine σ0).1.2)
    = observe (write 5 engine owner "z" change σ0).
Proof.
  destruct (copy_keeps_source_dispatch call_read call_write
              σ0 engine 2 3 read_items write_items
              scenario_world_driven_read scenario_world_driven_write
              scenario_keeps_lists eq_refl eq_refl eq_refl scenario_lists
              owner "z"%string) as [_ Hwrite].
  destruct (copy_keeps_source_dispatch call_read call_write
              σ0 engine 2 3 read_items write_items
              scenario_world_driven_read scenario_world_driven_write
              scenario_keeps_lists eq_refl eq_refl eq_refl scenario_lists
              owner "y"%string) as [Hread _].
  split; [exact Hread | apply Hwrite].
Defined.

End MoreScenarioRuns.
